(** * memcached.cpp: the per-connection session and the item cache

    A shallow embedding of [src/memcached.cpp]: the [session] class with its
    completion handlers ([do_read_header], [do_read_body], [do_get], [do_set],
    [send_response]) and the global [g_itemCache].

    - [unsigned char] is [Byte.byte]; [itemType] (a [std::vector] of bytes)
      is [list byte]; [g_itemCache] (a [std::map]) is a [gmap].
    - Each member function is a computation over the program state
      ([g_itemCache], [header_], [buffer_]) that ends by starting at most one
      asynchronous operation, exactly as each C++ handler does.
    - Iterator ranges that leave the vector are undefined behaviour in C++;
      the source checks no bounds, and the embedding marks such runs
      [OutOfRange] instead of inventing a result for them.
    - The mutex only excludes other connections during a map access; one
      connection is modelled, so the lock does not appear. *)

From Stdlib Require Import ZArith Lia.
From Stdlib.Strings Require Import Byte.
From stdpp Require Import base option list countable gmap.

Local Open Scope Z_scope.

(** ** Bytes *)

Module UChar.

#[global] Instance byte_eq_dec : EqDecision byte := Byte.byte_eq_dec.

#[global] Instance byte_inhabited : Inhabited byte := populate x00.

#[global] Instance byte_countable : Countable byte :=
  inj_countable Byte.to_N Byte.of_N Byte.of_to_N.

(** Integral promotion of an [unsigned char] to [int]. *)
Definition to_Z (b : byte) : Z := Z.of_N (Byte.to_N b).

(** Conversion of an integer to [unsigned char]: the low eight bits. *)
Definition of_Z (z : Z) : byte :=
  default x00 (Byte.of_N (Z.to_N (z mod 256))).

End UChar.
Export UChar.

(** ** Program state and the handler monad *)

(** [using itemType = std::vector<unsigned char>] *)
Abbreviation itemType := (list byte).

(** One access to the map made while holding [g_cacheMutex]. *)
Inductive cache_access :=
| Find (key : itemType)
| Assign (key value : itemType).

(** The global cache, the members of the one session, and [critical], the
    accesses made under [g_cacheMutex] so far, oldest first. *)
Record state := State {
  g_itemCache : gmap itemType itemType;
  header_ : list byte;
  buffer_ : itemType;
  critical : list cache_access
}.

(** The asynchronous operation a handler leaves outstanding when it returns. *)
Inductive async_op :=
| AsyncReadHeader
| AsyncReadBody (bodySize : Z)
| AsyncWrite (frame : list byte).

(** What a handler leaves behind: one outstanding operation, or nothing (the
    session object is then released and the socket closes). *)
Inductive next :=
| Await (op : async_op)
| Finished.

(** How a computation ends: with a result, or by reading outside a vector,
    which C++ leaves undefined and the source never guards against. *)
Inductive outcome (A : Type) :=
| Done (a : A)
| OutOfRange.
Arguments Done {A} a.
Arguments OutOfRange {A}.

(** Member functions: computations over the program state. *)
Definition M (A : Type) : Type := state → outcome (A * state).

Definition ret {A} (a : A) : M A := λ s, Done (a, s).

Definition bind {A B} (m : M A) (k : A → M B) : M B :=
  λ s, match m s with
       | Done (a, s') => k a s'
       | OutOfRange => OutOfRange
       end.

Definition lift {A} (o : outcome A) : M A :=
  λ s, match o with Done a => Done (a, s) | OutOfRange => OutOfRange end.

Definition get_cache : M (gmap (list byte) (list byte)) := λ s, Done (g_itemCache s, s).
Definition get_header : M (list byte) := λ s, Done (header_ s, s).
Definition get_buffer : M (list byte) := λ s, Done (buffer_ s, s).

Definition set_cache (c : gmap (list byte) (list byte)) : M unit :=
  λ s, Done (tt, State c (header_ s) (buffer_ s) (critical s)).
Definition set_buffer (b : list byte) : M unit :=
  λ s, Done (tt, State (g_itemCache s) (header_ s) b (critical s)).
Definition locked (a : cache_access) : M unit :=
  λ s, Done (tt, State (g_itemCache s) (header_ s) (buffer_ s) (critical s ++ [a])).

#[global] Instance M_ret : MRet M := @ret.
#[global] Instance M_bind : MBind M := λ A B k m, bind m k.

(** ** Vectors *)

(** [itemType(begin + off, begin + off + len)]: the range constructor. Both
    iterators must lie inside [begin, end]. *)
Definition range (v : list byte) (off len : Z) : outcome (list byte) :=
  if bool_decide (off + len ≤ Z.of_nat (length v))
  then Done (take (Z.to_nat len) (drop (Z.to_nat off) v))
  else OutOfRange.

(** The range [begin + off, cend) handed to [insert]. *)
Definition range_to_end (v : list byte) (off : Z) : outcome (list byte) :=
  if bool_decide (off ≤ Z.of_nat (length v))
  then Done (drop (Z.to_nat off) v)
  else OutOfRange.

(** ** The session *)

Definition header_length : nat := 24.

(** [header_[i]], promoted to [int]. *)
Definition hdr (h : list byte) (i : nat) : Z := to_Z (h !!! i).

(** A 32-bit [int] holding [z], and its conversion to a 64-bit [size_t]. *)
Definition to_int (z : Z) : Z := (z + 2 ^ 31) mod 2 ^ 32 - 2 ^ 31.
Definition to_size_t (z : Z) : Z := z mod 2 ^ 64.

(** [(header_[2] << 8) + header_[3]] *)
Definition keySize (h : list byte) : Z :=
  to_size_t (Z.shiftl (hdr h 2) 8 + hdr h 3).

(** [(header_[8] << 24) + (header_[9] << 16) + (header_[10] << 8) + header_[11]],
    computed in [int] and stored in a [size_t]. *)
Definition bodySize (h : list byte) : Z :=
  to_size_t (to_int (Z.shiftl (hdr h 8) 24) + Z.shiftl (hdr h 9) 16
             + Z.shiftl (hdr h 10) 8 + hdr h 11).

Definition not_found : list byte :=
  ["N"; "o"; "t"; " "; "f"; "o"; "u"; "n"; "d"]%byte.

Definition do_read_header : M next := ret (Await AsyncReadHeader).

Definition send_response (status : byte) : M next :=
  b ← get_buffer;
  let bodyLength := Z.of_nat (length b) in
  let extraLength :=
    if bool_decide (status = x00) && negb (bool_decide (length b = 0%nat))
    then x04 else x00 in
  (if bool_decide (status = x01) then set_buffer not_found else ret tt);;
  b ← get_buffer;
  set_buffer (replicate header_length x00 ++ b);;
  b ← get_buffer;
  set_buffer
    (<[11%nat := of_Z (Z.land bodyLength 255)]>
     (<[10%nat := of_Z (Z.shiftr bodyLength 8)]>
      (<[9%nat := of_Z (Z.shiftr bodyLength 16)]>
       (<[8%nat := of_Z (Z.shiftr bodyLength 24)]>
        (<[7%nat := status]>
         (<[6%nat := x00]>
          (<[4%nat := extraLength]>
           (<[0%nat := x81]> b))))))));;
  b ← get_buffer;
  ret (Await (AsyncWrite b)).

Definition do_get : M next :=
  h ← get_header;
  b ← get_buffer;
  key ← lift (range b (hdr h 4) (keySize h));
  c ← get_cache;
  locked (Find key);;
  match c !! key with
  | Some v => set_buffer v
  | None => set_buffer []
  end;;
  b ← get_buffer;
  send_response (if bool_decide (length b = 0%nat) then x01 else x00).

Definition do_set : M next :=
  h ← get_header;
  b ← get_buffer;
  tempValue ← lift (range b 0 4);
  payload ← lift (range_to_end b (hdr h 4 + keySize h));
  key ← lift (range b (hdr h 4) (keySize h));
  c ← get_cache;
  locked (Assign key (tempValue ++ payload));;
  set_cache (<[key := tempValue ++ payload]> c);;
  set_buffer [];;
  send_response x00.

Definition do_read_body : M next :=
  h ← get_header;
  b ← get_buffer;
  set_buffer (resize (Z.to_nat (bodySize h)) x00 b);;
  ret (Await (AsyncReadBody (bodySize h))).

(** The completion handler of the header read. [ec] is [true] when the read
    failed. *)
Definition on_read_header (ec : bool) : M next :=
  h ← get_header;
  if negb ec && bool_decide (hdr h 0 = 0x80)
     && (bool_decide (hdr h 1 = 0x0) || bool_decide (hdr h 1 = 0x1))
  then do_read_body
  else ret Finished.

(** The completion handler of the body read. *)
Definition on_read_body (ec : bool) : M next :=
  h ← get_header;
  if negb ec then
    if bool_decide (hdr h 1 = 0x0) then do_get
    else if bool_decide (hdr h 1 = 0x1) then do_set
    else ret Finished
  else ret Finished.

(** The completion handler of the response write. *)
Definition on_write (ec : bool) : M next :=
  if negb ec then do_read_header else ret Finished.

(** [session::start] *)
Definition start : M next := do_read_header.


(** ** One connection

    The socket of one session: the bytes the peer has sent and the session
    has not read yet, and the bytes the session has written. The peer sends
    [incoming] and then closes its side, so a read for more bytes than are
    left completes with an error; every write is accepted. [log] records
    each operation as it is started and as it completes. *)

Inductive event :=
| Issued (op : async_op)
| Completed (op : async_op) (ec : bool).

Inductive phase :=
| Pending (op : async_op)
| Closed
| Undefined.

Record conn := Conn {
  prog : state;
  stage : phase;
  incoming : list byte;
  outgoing : list byte;
  log : list event
}.

(** [async_read] of exactly [n] bytes into a buffer holding [old]: the error
    flag, the buffer afterwards and the bytes left on the socket. *)
Definition read_exact (n : Z) (old input : list byte) : bool * list byte * list byte :=
  if bool_decide (n ≤ Z.of_nat (length input))
  then (false, take (Z.to_nat n) input, drop (Z.to_nat n) input)
  else (true, input ++ drop (length input) old, []).

(** The handler the source passes along with each operation. *)
Definition handler (op : async_op) : bool → M next :=
  match op with
  | AsyncReadHeader => on_read_header
  | AsyncReadBody _ => on_read_body
  | AsyncWrite _ => on_write
  end.

(** Run a handler to its end and record what it left outstanding. *)
Definition resume (m : M next) (s : state) (inp out : list byte) (l : list event) : conn :=
  match m s with
  | Done (Await op, s') => Conn s' (Pending op) inp out (l ++ [Issued op])
  | Done (Finished, s') => Conn s' Closed inp out l
  | OutOfRange => Conn s Undefined inp out l
  end.

(** The outstanding operation completes and its handler runs. *)
Definition step (c : conn) : conn :=
  match stage c with
  | Pending AsyncReadHeader =>
      let '(ec, h, inp) :=
        read_exact (Z.of_nat header_length) (header_ (prog c)) (incoming c) in
      resume (on_read_header ec)
        (State (g_itemCache (prog c)) h (buffer_ (prog c)) (critical (prog c)))
        inp (outgoing c) (log c ++ [Completed AsyncReadHeader ec])
  | Pending (AsyncReadBody n) =>
      let '(ec, b, inp) := read_exact n (buffer_ (prog c)) (incoming c) in
      resume (on_read_body ec)
        (State (g_itemCache (prog c)) (header_ (prog c)) b (critical (prog c)))
        inp (outgoing c) (log c ++ [Completed (AsyncReadBody n) ec])
  | Pending (AsyncWrite frame) =>
      resume (on_write false) (prog c)
        (incoming c) (outgoing c ++ frame)
        (log c ++ [Completed (AsyncWrite frame) false])
  | Closed | Undefined => c
  end.

Definition steps (n : nat) (c : conn) : conn := Nat.iter n step c.

(** A freshly accepted connection: [std::make_shared<session>(...)->start()]
    over the current cache, with [input] on its way from the peer. *)
Definition accept (cache : gmap (list byte) (list byte)) (input : list byte) : conn :=
  resume start (State cache (replicate header_length x00) [] []) input [] [].

(** ** Requests as the dispatcher sees them

    [dispatch h body c] is the body-read handler run on header [h] with the
    body just read, over cache [c]. *)

Definition dispatch (h body : list byte) (c : gmap (list byte) (list byte))
  : outcome (next * state) :=
  on_read_body false (State c h body []).

(** The cache after serving a list of (header, body) requests in order. *)
Fixpoint serve (reqs : list (list byte * list byte)) (c : gmap (list byte) (list byte))
  : outcome (gmap (list byte) (list byte)) :=
  match reqs with
  | [] => Done c
  | (h, body) :: rest =>
      match dispatch h body c with
      | Done (_, s) => serve rest (g_itemCache s)
      | OutOfRange => OutOfRange
      end
  end.

(** The key a request addresses, when its key region lies inside the body. *)
Definition request_key (h body : list byte) : outcome (list byte) :=
  range body (hdr h 4) (keySize h).

(** A response frame split into header and body, and its header fields. *)
Definition frame_header (frame : list byte) : list byte := take header_length frame.
Definition frame_body (frame : list byte) : list byte := drop header_length frame.
Definition frame_status (frame : list byte) : Z :=
  Z.shiftl (hdr frame 6) 8 + hdr frame 7.
Definition frame_body_length (frame : list byte) : Z :=
  Z.shiftl (hdr frame 8) 24 + Z.shiftl (hdr frame 9) 16
  + Z.shiftl (hdr frame 10) 8 + hdr frame 11.

(** The frame [send_response] leaves in [buffer_], written out byte by byte
    ([send_response_frame] below proves the two agree). *)
Definition response_frame (status : byte) (b : list byte) : list byte :=
  let bodyLength := Z.of_nat (length b) in
  [x81; x00; x00; x00;
   (if bool_decide (status = x00) && negb (bool_decide (length b = 0%nat))
    then x04 else x00);
   x00; x00; status;
   of_Z (Z.shiftr bodyLength 24); of_Z (Z.shiftr bodyLength 16);
   of_Z (Z.shiftr bodyLength 8); of_Z (Z.land bodyLength 255)]
  ++ replicate 12 x00
  ++ (if bool_decide (status = x01) then not_found else b).

(** The bytes written so far according to the log. *)
Fixpoint written (l : list event) : list byte :=
  match l with
  | [] => []
  | Completed (AsyncWrite frame) false :: l' => frame ++ written l'
  | _ :: l' => written l'
  end.

(** ** Sequencing of the asynchronous operations

    [hands_over op ec op']: the handler of [op], completing with error flag
    [ec], may start [op']. *)
Inductive hands_over : async_op → bool → async_op → Prop :=
| header_then_body n :
    hands_over AsyncReadHeader false (AsyncReadBody n)
| body_then_write n frame :
    hands_over (AsyncReadBody n) false (AsyncWrite frame)
| write_then_header frame :
    hands_over (AsyncWrite frame) false AsyncReadHeader.

(** The logs a session can produce, with the stage it is left in: one
    operation is outstanding at a time, and the next one is started by the
    handler of the one that completed. *)
Inductive sequenced : list event → phase → Prop :=
| sequenced_start :
    sequenced [Issued AsyncReadHeader] (Pending AsyncReadHeader)
| sequenced_next l op ec op' :
    sequenced l (Pending op) → hands_over op ec op' →
    sequenced ((l ++ [Completed op ec]) ++ [Issued op']) (Pending op')
| sequenced_closed l op ec :
    sequenced l (Pending op) →
    sequenced (l ++ [Completed op ec]) Closed
| sequenced_undefined l op ec :
    sequenced l (Pending op) →
    sequenced (l ++ [Completed op ec]) Undefined.

(** The invariant of a connection: its log is sequenced and accounts for
    every byte written. *)
Definition sound (c : conn) : Prop :=
  sequenced (log c) (stage c) ∧ outgoing c = written (log c).

(** ** Well-formed requests (section 6 of the protocol description)

    A request frame is a 24-byte header with the request magic followed by
    as many body bytes as the header announces. *)
Definition is_frame (h body : list byte) : Prop :=
  length h = header_length ∧ hdr h 0 = 0x80 ∧ bodySize h = Z.of_nat (length body).

(** SET of [V] under [K]: opcode 1, a 4-byte extras block holding [flags],
    then the key, then the value. *)
Definition is_set (h body K flags V : list byte) : Prop :=
  hdr h 1 = 0x1 ∧ hdr h 4 = 4 ∧ keySize h = Z.of_nat (length K)
  ∧ length flags = 4%nat ∧ body = flags ++ K ++ V.

(** GET of [K]: opcode 0 and a body holding [K] after the extras. *)
Definition is_get (h body K : list byte) : Prop :=
  hdr h 1 = 0x0 ∧ request_key h body = Done K.

(** Whether request [r] is a SET addressing key [K]. *)
Definition sets_key (K : list byte) (r : list byte * list byte) : bool :=
  bool_decide (hdr r.1 1 = 0x1)
  && match request_key r.1 r.2 with
     | Done k => bool_decide (k = K)
     | OutOfRange => false
     end.

(** A header the source turns away: wrong magic or an opcode other than GET
    and SET. *)
Definition rejected (h : list byte) : Prop :=
  hdr h 0 ≠ 0x80 ∨ (hdr h 1 ≠ 0x0 ∧ hdr h 1 ≠ 0x1).

(** ** The frames of the end-to-end example: SET foo = AAAA ++ bar, GET foo *)

Module Example.

Definition foo : list byte := ["f"; "o"; "o"]%byte.
Definition flags : list byte := ["A"; "A"; "A"; "A"]%byte.
Definition bar : list byte := ["b"; "a"; "r"]%byte.
Definition baz : list byte := ["b"; "a"; "z"; "!"]%byte.
Definition qux : list byte := ["q"; "u"; "x"]%byte.

Definition set_header (bodyLength : byte) : list byte :=
  [x80; x01; x00; x03; x04; x00; x00; x00; x00; x00; x00; bodyLength]
  ++ replicate 12 x00.

Definition get_header (bodyLength : byte) : list byte :=
  [x80; x00; x00; x03; x00; x00; x00; x00; x00; x00; x00; bodyLength]
  ++ replicate 12 x00.

Definition set_bar : list byte * list byte := (set_header x0a, flags ++ foo ++ bar).
Definition set_baz : list byte * list byte := (set_header x0b, flags ++ foo ++ baz).
Definition set_qux : list byte * list byte := (set_header x0a, flags ++ qux ++ bar).
Definition get_foo : list byte * list byte := (get_header x03, foo).

(** A SET that declares no extras: the key starts at offset 0, inside the
    four bytes that are stored as flags. *)
Definition set_no_extras : list byte * list byte :=
  ([x80; x01; x00; x03; x00; x00; x00; x00; x00; x00; x00; x06]
   ++ replicate 12 x00, foo ++ bar).

(** A GET whose header announces a 3-byte key over a 1-byte body. *)
Definition short_get : list byte * list byte := (get_header x01, ["f"]%byte).

(** A header with the response magic where the request magic belongs. *)
Definition bad_magic : list byte := x81 :: drop 1 (get_header x03).

End Example.

(** ** A stream of requests *)

(** The bytes of a list of requests on the socket: each header followed by
    its body. *)
Definition wire (reqs : list (list byte * list byte)) : list byte :=
  concat (map (λ r, r.1 ++ r.2) reqs).

(** A request that passes the header handler and whose header announces its
    body. *)
Definition on_wire (r : list byte * list byte) : Prop :=
  is_frame r.1 r.2 ∧ (hdr r.1 1 = 0x0 ∨ hdr r.1 1 = 0x1).

(** The response frames of a list of requests served in order, one after
    the other. *)
Fixpoint replies (reqs : list (list byte * list byte))
    (c : gmap (list byte) (list byte)) : list byte :=
  match reqs with
  | [] => []
  | (h, body) :: rest =>
      match dispatch h body c with
      | Done (Await (AsyncWrite frame), s) => frame ++ replies rest (g_itemCache s)
      | _ => []
      end
  end.

(** Whether an access assigns to key [K]. *)
Definition assigns (K : list byte) (a : cache_access) : bool :=
  match a with
  | Assign k _ => bool_decide (k = K)
  | Find _ => false
  end.

(** ** The server: many sessions over one cache

    [main] calls [io_service.run()] from a single thread, so the completion
    handlers of all sessions and of the acceptor run one at a time, in the
    order in which the operations complete. [itemCache] is the one global
    [g_itemCache]; the copy inside a session's [prog] is the cache as that
    session last left it and is replaced by the global one whenever one of
    its handlers runs. *)

Record server := Server {
  itemCache : gmap itemType itemType;
  sessions : list conn
}.

(** What can complete next: the pending [async_accept], with the bytes the
    new peer is going to send, or the outstanding operation of session [i]. *)
Inductive completion :=
| Accepted (ec : bool) (input : list byte)
| Ready (i : nat).

(** Session [c] looking at cache [g]. *)
Definition over (g : gmap itemType itemType) (c : conn) : conn :=
  Conn (State g (header_ (prog c)) (buffer_ (prog c)) (critical (prog c)))
       (stage c) (incoming c) (outgoing c) (log c).

(** The handler of [server::do_accept]: a new session is made and started
    unless the accept failed; either way the server goes on accepting. *)
Definition do_accept (ec : bool) (input : list byte) (sv : server) : server :=
  if ec then sv
  else Server (itemCache sv) (sessions sv ++ [accept (itemCache sv) input]).

Definition handle (e : completion) (sv : server) : server :=
  match e with
  | Accepted ec input => do_accept ec input sv
  | Ready i =>
      match sessions sv !! i with
      | Some c =>
          let c' := step (over (itemCache sv) c) in
          Server (g_itemCache (prog c')) (<[i := c']> (sessions sv))
      | None => sv
      end
  end.

Definition run (es : list completion) (sv : server) : server :=
  foldl (λ sv e, handle e sv) sv es.

(** [server s(io_service, port)]: an empty cache and no session yet. *)
Definition listening : server := Server ∅ [].

(** The cache accesses session [i] has made so far (none if there is no
    such session yet). *)
Definition accesses (sv : server) (i : nat) : list cache_access :=
  match sessions sv !! i with
  | Some c => critical (prog c)
  | None => []
  end.


(** No handler has read outside its buffer. *)
Definition defined (sv : server) : Prop :=
  Forall (λ c, stage c ≠ Undefined) (sessions sv).

(** * Properties *)

(** ** Bytes and header arithmetic *)

Lemma to_Z_range (b : byte) : 0 ≤ to_Z b < 256.
Proof.
  unfold to_Z. pose proof (Byte.to_N_bounded b). lia.
Qed.

Lemma to_Z_of_Z (z : Z) : to_Z (of_Z z) = z mod 256.
Proof.
  unfold to_Z, of_Z.
  assert (Hr : 0 ≤ z mod 256 < 256) by (apply Z.mod_pos_bound; lia).
  destruct (Byte.of_N (Z.to_N (z mod 256))) as [b|] eqn:Hb; simpl.
  - apply Byte.to_of_N in Hb. rewrite Hb. lia.
  - apply Byte.of_N_None_iff in Hb. lia.
Qed.

Lemma hdr_range (h : list byte) (i : nat) : 0 ≤ hdr h i < 256.
Proof. apply to_Z_range. Qed.

Lemma keySize_range (h : list byte) : 0 ≤ keySize h < 65536.
Proof.
  unfold keySize, to_size_t.
  pose proof (hdr_range h 2). pose proof (hdr_range h 3).
  rewrite Z.shiftl_mul_pow2 by lia.
  rewrite Z.mod_small; lia.
Qed.

(** The four length bytes [send_response] writes spell the length back,
    most significant byte first, as long as it fits 32 bits. *)
Lemma length_bytes_decode (n : Z) :
  0 ≤ n < 2 ^ 32 →
  Z.shiftl (to_Z (of_Z (Z.shiftr n 24))) 24
  + Z.shiftl (to_Z (of_Z (Z.shiftr n 16))) 16
  + Z.shiftl (to_Z (of_Z (Z.shiftr n 8))) 8
  + to_Z (of_Z (Z.land n 255)) = n.
Proof.
  intros Hn. rewrite !to_Z_of_Z.
  change 255 with (Z.ones 8). rewrite Z.land_ones by lia.
  rewrite !Z.shiftr_div_pow2, !Z.shiftl_mul_pow2 by lia.
  change (2 ^ 8) with 256. change (2 ^ 16) with 65536.
  change (2 ^ 24) with 16777216. change (2 ^ 32) with 4294967296 in Hn.
  Z.div_mod_to_equations. lia.
Qed.

(** ** The handlers, one equation each *)

Ltac unfold_M :=
  unfold mbind, mret, M_bind, M_ret, bind, ret, lift,
    get_cache, get_header, get_buffer, set_cache, set_buffer, locked.

Lemma send_response_frame (status : byte) (s : state) :
  send_response status s =
  Done (Await (AsyncWrite (response_frame status (buffer_ s))),
        State (g_itemCache s) (header_ s)
              (response_frame status (buffer_ s)) (critical s)).
Proof.
  unfold send_response, response_frame. unfold_M.
  destruct (bool_decide (status = x01)); reflexivity.
Qed.

Lemma range_in (v : list byte) (off len : Z) :
  off + len ≤ Z.of_nat (length v) →
  range v off len = Done (take (Z.to_nat len) (drop (Z.to_nat off) v)).
Proof. intros H. unfold range. by rewrite bool_decide_eq_true_2. Qed.

Lemma range_out (v : list byte) (off len : Z) :
  Z.of_nat (length v) < off + len → range v off len = OutOfRange.
Proof. intros H. unfold range. rewrite bool_decide_eq_false_2; [done | lia]. Qed.

Lemma range_Done (v k : list byte) (off len : Z) :
  range v off len = Done k →
  off + len ≤ Z.of_nat (length v) ∧ k = take (Z.to_nat len) (drop (Z.to_nat off) v).
Proof.
  unfold range. case_bool_decide; [|done]. intros [= <-]. done.
Qed.

Lemma range_to_end_in (v : list byte) (off : Z) :
  off ≤ Z.of_nat (length v) →
  range_to_end v off = Done (drop (Z.to_nat off) v).
Proof. intros H. unfold range_to_end. by rewrite bool_decide_eq_true_2. Qed.

(** The key of a request laid out as extras, key, rest. *)
Lemma request_key_app (h ex K rest : list byte) :
  hdr h 4 = Z.of_nat (length ex) → keySize h = Z.of_nat (length K) →
  request_key h (ex ++ K ++ rest) = Done K.
Proof.
  intros He Hk. unfold request_key. rewrite range_in.
  - rewrite He, Hk, !Nat2Z.id. rewrite drop_app_length, take_app_length. done.
  - rewrite He, Hk, !length_app. lia.
Qed.

(** [do_get] on a body that holds the key region. *)
Lemma do_get_in_range (s : state) (K : list byte) :
  range (buffer_ s) (hdr (header_ s) 4) (keySize (header_ s)) = Done K →
  do_get s =
  let v := default [] (g_itemCache s !! K) in
  let status := if bool_decide (length v = 0%nat) then x01 else x00 in
  Done (Await (AsyncWrite (response_frame status v)),
        State (g_itemCache s) (header_ s) (response_frame status v)
              (critical s ++ [Find K])).
Proof.
  intros HK. unfold do_get. unfold_M. rewrite HK. simpl.
  destruct (g_itemCache s !! K) as [v|]; simpl;
    rewrite send_response_frame; reflexivity.
Qed.

(** [do_get] on a body too short for the key region. *)
Lemma do_get_out_of_range (s : state) :
  Z.of_nat (length (buffer_ s)) < hdr (header_ s) 4 + keySize (header_ s) →
  do_get s = OutOfRange.
Proof.
  intros H. unfold do_get. unfold_M. by rewrite range_out.
Qed.

(** [do_set] on a body that holds the flags and the key region. *)
Lemma do_set_in_range (s : state) :
  let b := buffer_ s in
  let off := hdr (header_ s) 4 in
  let len := keySize (header_ s) in
  4 ≤ Z.of_nat (length b) → off + len ≤ Z.of_nat (length b) →
  do_set s =
  let key := take (Z.to_nat len) (drop (Z.to_nat off) b) in
  let value := take 4 b ++ drop (Z.to_nat (off + len)) b in
  Done (Await (AsyncWrite (response_frame x00 [])),
        State (<[key := value]> (g_itemCache s)) (header_ s)
              (response_frame x00 []) (critical s ++ [Assign key value])).
Proof.
  intros b off len H4 Hk. unfold do_set. unfold_M.
  fold b off len.
  rewrite (range_in b 0 4) by lia.
  rewrite range_to_end_in by lia.
  rewrite range_in by lia. simpl.
  rewrite send_response_frame. reflexivity.
Qed.

(** A [do_set] that ran to its end had the flags and the key region. *)
Lemma do_set_Done (s : state) (r : next) (s' : state) :
  do_set s = Done (r, s') →
  4 ≤ Z.of_nat (length (buffer_ s))
  ∧ hdr (header_ s) 4 + keySize (header_ s) ≤ Z.of_nat (length (buffer_ s)).
Proof.
  unfold do_set. unfold_M. unfold range at 1, range_to_end.
  repeat case_bool_decide; first [done | intros _; lia].
Qed.

(** ** Fields of a response frame *)

Lemma frame_body_response (status : byte) (b : list byte) :
  frame_body (response_frame status b)
  = if bool_decide (status = x01) then not_found else b.
Proof. reflexivity. Qed.

Lemma frame_header_length (status : byte) (b : list byte) :
  length (frame_header (response_frame status b)) = header_length.
Proof. reflexivity. Qed.

Lemma frame_status_response (status : byte) (b : list byte) :
  frame_status (response_frame status b) = to_Z status.
Proof. reflexivity. Qed.

Lemma frame_magic_response (status : byte) (b : list byte) :
  hdr (response_frame status b) 0 = 0x81.
Proof. reflexivity. Qed.

Lemma frame_extras_response (status : byte) (b : list byte) :
  hdr (response_frame status b) 4
  = if bool_decide (status = x00) && negb (bool_decide (length b = 0%nat))
    then 4 else 0.
Proof.
  unfold hdr, response_frame. simpl.
  destruct (bool_decide (status = x00) && negb (bool_decide (length b = 0%nat)));
    reflexivity.
Qed.

(** The length field announces the length [buffer_] had on entry to
    [send_response]. *)
Lemma frame_body_length_response (status : byte) (b : list byte) :
  Z.of_nat (length b) < 2 ^ 32 →
  frame_body_length (response_frame status b) = Z.of_nat (length b).
Proof.
  intros Hb. unfold frame_body_length, hdr, response_frame.
  cbn [app lookup_total list_lookup_total].
  apply length_bytes_decode. lia.
Qed.

(** ** Dispatch by opcode *)

Lemma on_read_body_get (s : state) :
  hdr (header_ s) 1 = 0x0 → on_read_body false s = do_get s.
Proof.
  intros H. unfold on_read_body. unfold_M. simpl.
  by rewrite bool_decide_eq_true_2.
Qed.

Lemma on_read_body_set (s : state) :
  hdr (header_ s) 1 = 0x1 → on_read_body false s = do_set s.
Proof.
  intros H. unfold on_read_body. unfold_M. simpl.
  rewrite bool_decide_eq_false_2 by lia.
  by rewrite bool_decide_eq_true_2.
Qed.

Lemma dispatch_get (h body : list byte) (c : gmap (list byte) (list byte)) :
  hdr h 1 = 0x0 → dispatch h body c = do_get (State c h body []).
Proof. intros H. by apply on_read_body_get. Qed.

Lemma dispatch_set (h body : list byte) (c : gmap (list byte) (list byte)) :
  hdr h 1 = 0x1 → dispatch h body c = do_set (State c h body []).
Proof. intros H. by apply on_read_body_set. Qed.

Lemma dispatch_other (h body : list byte) (c : gmap (list byte) (list byte)) :
  hdr h 1 ≠ 0x0 → hdr h 1 ≠ 0x1 →
  dispatch h body c = Done (Finished, State c h body []).
Proof.
  intros H0 H1. unfold dispatch, on_read_body. unfold_M. simpl.
  by rewrite !bool_decide_eq_false_2.
Qed.

(** A SET in the protocol's layout stores [flags ++ V] under [K]. *)
Lemma do_set_is_set (s : state) (K flags V : list byte) :
  is_set (header_ s) (buffer_ s) K flags V →
  do_set s =
  Done (Await (AsyncWrite (response_frame x00 [])),
        State (<[K := flags ++ V]> (g_itemCache s)) (header_ s)
              (response_frame x00 []) (critical s ++ [Assign K (flags ++ V)])).
Proof.
  intros (Hop & Hex & Hk & Hf & Hb).
  rewrite do_set_in_range by (rewrite Hb, !length_app; lia).
  simpl. rewrite Hex, Hk, Hb.
  replace (Z.to_nat 4) with (length flags) by lia.
  replace (Z.to_nat (4 + Z.of_nat (length K)))
    with (length flags + length K)%nat by lia.
  rewrite drop_app_length, Nat2Z.id, take_app_length.
  rewrite <- drop_drop, !drop_app_length.
  rewrite <- Hf, take_app_length. done.
Qed.

Lemma dispatch_is_set (h body K flags V : list byte) (c : gmap (list byte) (list byte)) :
  is_set h body K flags V →
  ∃ s, dispatch h body c = Done (Await (AsyncWrite (response_frame x00 [])), s)
       ∧ g_itemCache s = <[K := flags ++ V]> c.
Proof.
  intros Hset. rewrite dispatch_set by apply Hset.
  eexists. split; [by apply (do_set_is_set _ K flags V)|]. reflexivity.
Qed.

(** A GET whose body holds the key answers from the cache. *)
Lemma dispatch_is_get (h body K : list byte) (c : gmap (list byte) (list byte)) :
  is_get h body K →
  let v := default [] (c !! K) in
  let status := if bool_decide (length v = 0%nat) then x01 else x00 in
  ∃ s, dispatch h body c = Done (Await (AsyncWrite (response_frame status v)), s)
       ∧ g_itemCache s = c.
Proof.
  intros (Hop & HK) v status.
  rewrite dispatch_get by done.
  eexists. split.
  - apply (do_get_in_range (State c h body []) K). exact HK.
  - reflexivity.
Qed.

(** What one request can do to the cache: nothing, or (a SET) bind its key
    to a value that carries the four flag bytes. *)
Lemma dispatch_cache (h body : list byte) (c : gmap (list byte) (list byte))
    (r : next) (s : state) :
  dispatch h body c = Done (r, s) →
  g_itemCache s = c
  ∨ (hdr h 1 = 0x1
     ∧ ∃ key value, request_key h body = Done key
                    ∧ (4 ≤ length value)%nat
                    ∧ g_itemCache s = <[key := value]> c).
Proof.
  intros Hd.
  destruct (decide (hdr h 1 = 0x0)) as [H0|H0];
    [|destruct (decide (hdr h 1 = 0x1)) as [H1|H1]].
  - left. rewrite dispatch_get in Hd by done.
    destruct (range body (hdr h 4) (keySize h)) as [K|] eqn:HK.
    + rewrite (do_get_in_range (State c h body []) K HK) in Hd.
      by injection Hd as _ <-.
    + unfold range in HK. case_bool_decide; [done|].
      rewrite do_get_out_of_range in Hd; [done | simpl; lia].
  - right. split; [done|].
    rewrite dispatch_set in Hd by done.
    pose proof (do_set_Done _ _ _ Hd) as [H4 Hk]. simpl in H4, Hk.
    rewrite do_set_in_range in Hd by done. simpl in Hd.
    injection Hd as _ <-. do 2 eexists. split; [|split; [|reflexivity]].
    + unfold request_key. by apply range_in.
    + rewrite length_app, length_take. lia.
  - left. rewrite dispatch_other in Hd by done. by injection Hd as _ <-.
Qed.

(** ** SET then GET *)

Lemma set_get_same_key (c : gmap (list byte) (list byte))
    (hs bs hg bg K flags V : list byte) :
  is_set hs bs K flags V → is_get hg bg K →
  ∃ s1 s2 frame,
    dispatch hs bs c = Done (Await (AsyncWrite (response_frame x00 [])), s1)
    ∧ dispatch hg bg (g_itemCache s1) = Done (Await (AsyncWrite frame), s2)
    ∧ frame_status frame = 0
    ∧ frame_body frame = flags ++ V.
Proof.
  intros Hset Hget.
  destruct (dispatch_is_set _ _ _ _ _ c Hset) as (s1 & Hd1 & Hc1).
  destruct (dispatch_is_get _ _ _ (g_itemCache s1) Hget) as (s2 & Hd2 & _).
  exists s1, s2. eexists. split; [exact Hd1|]. split; [exact Hd2|].
  rewrite Hc1, lookup_insert_eq. simpl.
  destruct Hset as (_ & _ & _ & Hf & _).
  rewrite bool_decide_eq_false_2 by (rewrite length_app; lia).
  done.
Qed.

(** C1. For any key K and value V (the empty value included), a SET of V
    under K with a 4-byte flags block in the extras, followed by a GET of K
    on the resulting cache, is answered with status NoError and the body
    flags ++ V. *)
Theorem set_then_get_round_trip (c : gmap (list byte) (list byte))
    (hs bs hg bg K flags V : list byte) :
  is_set hs bs K flags V → is_get hg bg K →
  ∃ s1 s2 frame,
    dispatch hs bs c = Done (Await (AsyncWrite (response_frame x00 [])), s1)
    ∧ dispatch hg bg (g_itemCache s1) = Done (Await (AsyncWrite frame), s2)
    ∧ frame_status frame = 0
    ∧ frame_body frame = flags ++ V.
Proof. apply set_get_same_key. Qed.

Lemma set_then_get_round_trip_witness :
  is_set (Example.set_bar).1 (Example.set_bar).2 Example.foo Example.flags Example.bar
  ∧ is_get (Example.get_foo).1 (Example.get_foo).2 Example.foo
  ∧ ∃ s1 s2 frame,
      dispatch (Example.set_bar).1 (Example.set_bar).2 ∅
      = Done (Await (AsyncWrite (response_frame x00 [])), s1)
      ∧ dispatch (Example.get_foo).1 (Example.get_foo).2 (g_itemCache s1)
        = Done (Await (AsyncWrite frame), s2)
      ∧ frame_status frame = 0
      ∧ frame_body frame = Example.flags ++ Example.bar.
Proof.
  assert (Hs : is_set (Example.set_bar).1 (Example.set_bar).2
                 Example.foo Example.flags Example.bar)
    by (repeat split; reflexivity).
  assert (Hg : is_get (Example.get_foo).1 (Example.get_foo).2 Example.foo)
    by (split; reflexivity).
  split; [exact Hs|]. split; [exact Hg|].
  exact (set_then_get_round_trip ∅ _ _ _ _ _ _ _ Hs Hg).
Defined.

(** ** The response header *)

(** C2. Every response header should carry magic 0x81, the extras length,
    the status in bytes 6-7 and, in bytes 8-11, the length of the body that
    follows it on the wire. For a GET miss the source takes [bodyLength]
    before it replaces [buffer_] with the nine bytes of "Not found": the
    frame written for a GET of foo on the empty cache has status 1, announces
    a body of 0 bytes and carries 9. *)
Theorem miss_announces_empty_body :
  ∃ frame s,
    dispatch (Example.get_foo).1 (Example.get_foo).2 ∅
    = Done (Await (AsyncWrite frame), s)
    ∧ hdr frame 0 = 0x81
    ∧ hdr frame 4 = 0
    ∧ frame_status frame = 1
    ∧ frame_body_length frame = 0
    ∧ length (frame_body frame) = 9%nat.
Proof.
  do 2 eexists. split.
  { rewrite dispatch_get by reflexivity.
    apply (do_get_in_range _ Example.foo). reflexivity. }
  repeat split.
Qed.

(** ** GET of a key that is not there *)

Lemma serve_never_set (reqs : list (list byte * list byte))
    (c c' : gmap (list byte) (list byte)) (K : list byte) :
  forallb (λ r, negb (sets_key K r)) reqs = true →
  serve reqs c = Done c' → c !! K = None → c' !! K = None.
Proof.
  revert c. induction reqs as [|[h body] reqs IH]; intros c Hn Hs Hc.
  - by injection Hs as <-.
  - simpl in Hn, Hs. apply andb_true_iff in Hn as [Hr Hn].
    destruct (dispatch h body c) as [[r s]|] eqn:Hd; [|done].
    apply (IH _ Hn Hs).
    destruct (dispatch_cache _ _ _ _ _ Hd)
      as [-> | (H1 & key & value & Hk & _ & ->)]; [done|].
    rewrite lookup_insert_ne; [done|]. intros ->.
    unfold sets_key in Hr. simpl in Hr. rewrite Hk in Hr.
    rewrite !bool_decide_eq_true_2 in Hr by done. done.
Qed.

(** C3. A GET for a key that no request has SET (in particular any GET on
    the empty cache) is answered with status KeyNotFound, low status byte 1,
    and a body that is exactly the characters "Not found". *)
Theorem get_of_unset_key (reqs : list (list byte * list byte))
    (c : gmap (list byte) (list byte)) (h body K : list byte) :
  serve reqs ∅ = Done c →
  forallb (λ r, negb (sets_key K r)) reqs = true →
  is_get h body K →
  ∃ frame s,
    dispatch h body c = Done (Await (AsyncWrite frame), s)
    ∧ frame_status frame = 1
    ∧ hdr frame 7 = 1
    ∧ frame_body frame = ["N"; "o"; "t"; " "; "f"; "o"; "u"; "n"; "d"]%byte.
Proof.
  intros Hs Hn Hget.
  assert (Hc : c !! K = None)
    by (eapply serve_never_set; [exact Hn | exact Hs | apply lookup_empty]).
  destruct (dispatch_is_get _ _ _ c Hget) as (s & Hd & _).
  rewrite Hc in Hd. simpl in Hd.
  exists (response_frame x01 []), s. done.
Qed.

Lemma get_of_unset_key_witness :
  serve [Example.set_qux; Example.get_foo] ∅
  = Done {[ Example.qux := Example.flags ++ Example.bar ]}
  ∧ forallb (λ r, negb (sets_key Example.foo r))
      [Example.set_qux; Example.get_foo] = true
  ∧ is_get (Example.get_foo).1 (Example.get_foo).2 Example.foo
  ∧ ∃ frame s,
      dispatch (Example.get_foo).1 (Example.get_foo).2
        {[ Example.qux := Example.flags ++ Example.bar ]}
      = Done (Await (AsyncWrite frame), s)
      ∧ frame_status frame = 1
      ∧ hdr frame 7 = 1
      ∧ frame_body frame = ["N"; "o"; "t"; " "; "f"; "o"; "u"; "n"; "d"]%byte.
Proof.
  assert (Hs : serve [Example.set_qux; Example.get_foo] ∅
               = Done {[ Example.qux := Example.flags ++ Example.bar ]})
    by reflexivity.
  assert (Hn : forallb (λ r, negb (sets_key Example.foo r))
                 [Example.set_qux; Example.get_foo] = true)
    by reflexivity.
  assert (Hg : is_get (Example.get_foo).1 (Example.get_foo).2 Example.foo)
    by (split; reflexivity).
  split; [exact Hs|]. split; [exact Hn|]. split; [exact Hg|].
  exact (get_of_unset_key _ _ _ _ _ Hs Hn Hg).
Defined.

(** ** Decoding the body *)

(** C5, as the code has it. The source checks no lengths, so a GET never
    ends the session with a decode error, whatever its body. When the body
    holds extrasLength + keyLength bytes, the key looked up is the keyLength
    bytes at offset extrasLength and the answer comes from the cache. *)
Theorem get_key_region (h body : list byte) (c : gmap (list byte) (list byte)) :
  hdr h 1 = 0x0 →
  (∀ s, dispatch h body c ≠ Done (Finished, s))
  ∧ (hdr h 4 + keySize h ≤ Z.of_nat (length body) →
     let key := take (Z.to_nat (keySize h)) (drop (Z.to_nat (hdr h 4)) body) in
     let v := default [] (c !! key) in
     let status := if bool_decide (length v = 0%nat) then x01 else x00 in
     ∃ s, dispatch h body c
          = Done (Await (AsyncWrite (response_frame status v)), s)
          ∧ critical s = [Find key]).
Proof.
  intros Hop. rewrite dispatch_get by done. split.
  - intros s Hd.
    destruct (range body (hdr h 4) (keySize h)) as [K|] eqn:HK.
    + by rewrite (do_get_in_range (State c h body []) K HK) in Hd.
    + unfold range in HK. case_bool_decide; [done|].
      rewrite do_get_out_of_range in Hd; [done | simpl; lia].
  - intros Hlen key v status. eexists. split.
    + apply (do_get_in_range (State c h body []) key). by apply range_in.
    + reflexivity.
Qed.

Lemma get_key_region_witness :
  hdr (Example.get_foo).1 1 = 0x0
  ∧ (∀ s, dispatch (Example.get_foo).1 (Example.get_foo).2 ∅ ≠ Done (Finished, s))
  ∧ ∃ s, dispatch (Example.get_foo).1 (Example.get_foo).2 ∅
         = Done (Await (AsyncWrite (response_frame x01 [])), s)
         ∧ critical s = [Find Example.foo].
Proof.
  assert (Hop : hdr (Example.get_foo).1 1 = 0x0) by reflexivity.
  destruct (get_key_region (Example.get_foo).1 (Example.get_foo).2 ∅ Hop)
    as [Hnever Hkey].
  split; [exact Hop|]. split; [exact Hnever|].
  apply Hkey. vm_compute. discriminate.
Defined.

(** C5, as stated, fails: a GET whose body is shorter than extrasLength +
    keyLength is not turned away. The handler goes on to build the key from
    a range that leaves the buffer. *)
Lemma short_get_not_rejected :
  hdr (Example.short_get).1 1 = 0x0
  ∧ Z.of_nat (length (Example.short_get).2)
    < hdr (Example.short_get).1 4 + keySize (Example.short_get).1
  ∧ dispatch (Example.short_get).1 (Example.short_get).2 ∅ = OutOfRange
  ∧ ¬ ∃ s, dispatch (Example.short_get).1 (Example.short_get).2 ∅
           = Done (Finished, s).
Proof.
  split; [reflexivity|]. split; [reflexivity|]. split; [reflexivity|].
  intros [s Hs]. discriminate Hs.
Qed.

(** C7. Decoding a SET body: the flags are the first 4 bytes of the body
    whatever extras length the header declares, the key is the keyLength
    bytes at offset extrasLength, the payload is everything after the key
    region, and the value stored under the key is flags ++ payload. *)
Theorem set_body_layout (h body : list byte) (c : gmap (list byte) (list byte)) :
  hdr h 1 = 0x1 →
  4 ≤ Z.of_nat (length body) →
  hdr h 4 + keySize h ≤ Z.of_nat (length body) →
  let flags := take 4 body in
  let key := take (Z.to_nat (keySize h)) (drop (Z.to_nat (hdr h 4)) body) in
  let payload := drop (Z.to_nat (hdr h 4 + keySize h)) body in
  ∃ r s, dispatch h body c = Done (r, s)
         ∧ g_itemCache s = <[key := flags ++ payload]> c
         ∧ critical s = [Assign key (flags ++ payload)].
Proof.
  intros Hop H4 Hk flags key payload.
  rewrite dispatch_set by done.
  rewrite do_set_in_range by done.
  do 2 eexists. split; [reflexivity|]. split; reflexivity.
Qed.

Lemma set_body_layout_witness :
  hdr (Example.set_no_extras).1 4 = 0
  ∧ ∃ r s, dispatch (Example.set_no_extras).1 (Example.set_no_extras).2 ∅ = Done (r, s)
           ∧ g_itemCache s
             = <[ Example.foo := ["f"; "o"; "o"; "b"]%byte ++ Example.bar ]> ∅
           ∧ critical s
             = [Assign Example.foo (["f"; "o"; "o"; "b"]%byte ++ Example.bar)].
Proof.
  split; [reflexivity|].
  apply (set_body_layout (Example.set_no_extras).1 (Example.set_no_extras).2 ∅).
  - reflexivity.
  - vm_compute. discriminate.
  - vm_compute. discriminate.
Defined.

(** ** The cache *)

(** C10. A GET never modifies the cache: whenever [do_get] runs to its end,
    hit or miss, the cache it leaves is the cache it found. *)
Theorem do_get_keeps_cache (s s' : state) (r : next) :
  do_get s = Done (r, s') → g_itemCache s' = g_itemCache s.
Proof.
  intros Hd.
  destruct (range (buffer_ s) (hdr (header_ s) 4) (keySize (header_ s)))
    as [K|] eqn:HK.
  - rewrite (do_get_in_range s K HK) in Hd. by injection Hd as _ <-.
  - unfold range in HK. case_bool_decide; [done|].
    rewrite do_get_out_of_range in Hd; [done | lia].
Qed.

Lemma do_get_keeps_cache_witness :
  ∃ r s',
    do_get (State {[ Example.foo := Example.flags ++ Example.bar ]}
                  (Example.get_foo).1 (Example.get_foo).2 []) = Done (r, s')
    ∧ g_itemCache s' = {[ Example.foo := Example.flags ++ Example.bar ]}.
Proof.
  pose (s := State {[ Example.foo := Example.flags ++ Example.bar ]}
                   (Example.get_foo).1 (Example.get_foo).2 []).
  pose proof (do_get_in_range s Example.foo eq_refl) as Hd.
  do 2 eexists. split; [exact Hd|].
  exact (do_get_keeps_cache s _ _ Hd).
Defined.

(** Every value a served cache holds starts with four flag bytes. *)
Lemma serve_values_length (reqs : list (list byte * list byte))
    (c c' : gmap (list byte) (list byte)) :
  serve reqs c = Done c' →
  map_Forall (λ _ v, (4 ≤ length v)%nat) c →
  map_Forall (λ _ v, (4 ≤ length v)%nat) c'.
Proof.
  revert c. induction reqs as [|[h body] reqs IH]; intros c Hs Hc.
  - by injection Hs as <-.
  - simpl in Hs.
    destruct (dispatch h body c) as [[r s]|] eqn:Hd; [|done].
    apply (IH _ Hs).
    destruct (dispatch_cache _ _ _ _ _ Hd)
      as [-> | (_ & key & value & _ & Hv & ->)]; [done|].
    by apply map_Forall_insert_2.
Qed.

(** A run of [serve] that reaches its end only served SETs whose body had
    the four flag bytes. *)
Lemma serve_set_bodies (reqs : list (list byte * list byte))
    (c c' : gmap (list byte) (list byte)) :
  serve reqs c = Done c' →
  Forall (λ r, hdr r.1 1 = 0x1 → (4 ≤ length r.2)%nat) reqs.
Proof.
  revert c. induction reqs as [|[h body] reqs IH]; intros c Hs; [constructor|].
  simpl in Hs.
  destruct (dispatch h body c) as [[r s]|] eqn:Hd; [|done].
  constructor; [|by eapply IH].
  simpl. intros H1. rewrite dispatch_set in Hd by done.
  apply do_set_Done in Hd as [H4 _]. simpl in H4. lia.
Qed.

(** C4. After any sequence of requests the cache lists each key once, and a
    SET on a key that is present replaces its value whole: after SET(K,V1)
    and SET(K,V2) the cache is what SET(K,V2) alone would have left, it has
    as many entries as after the first SET, and GET(K) answers with the
    bytes stored for V2. *)
Theorem set_overwrites (reqs : list (list byte * list byte))
    (c : gmap (list byte) (list byte))
    (h1 b1 h2 b2 hg bg K f1 V1 f2 V2 : list byte) :
  serve reqs ∅ = Done c →
  is_set h1 b1 K f1 V1 → is_set h2 b2 K f2 V2 → is_get hg bg K →
  NoDup (map_to_list c).*1
  ∧ ∃ c1 c2 frame s,
      serve [(h1, b1)] c = Done c1
      ∧ serve [(h2, b2)] c1 = Done c2
      ∧ c2 = <[K := f2 ++ V2]> c
      ∧ size c2 = size c1
      ∧ NoDup (map_to_list c2).*1
      ∧ dispatch hg bg c2 = Done (Await (AsyncWrite frame), s)
      ∧ frame_status frame = 0
      ∧ frame_body frame = f2 ++ V2.
Proof.
  intros _ Hs1 Hs2 Hg. split; [apply NoDup_fst_map_to_list|].
  destruct (dispatch_is_set _ _ _ _ _ c Hs1) as (s1 & Hd1 & Hc1).
  destruct (set_get_same_key (g_itemCache s1) _ _ _ _ _ _ _ Hs2 Hg)
    as (s2 & s3 & frame & Hd2 & Hd3 & Hst & Hb).
  exists (g_itemCache s1), (g_itemCache s2), frame, s3.
  destruct (dispatch_is_set _ _ _ _ _ (g_itemCache s1) Hs2) as (s2' & Hd2' & Hc2).
  rewrite Hd2 in Hd2'. injection Hd2' as <-.
  split; [simpl; by rewrite Hd1|].
  split; [simpl; by rewrite Hd2|].
  split; [by rewrite Hc2, Hc1, insert_insert_eq|].
  split.
  { rewrite Hc2, Hc1. apply map_size_insert_Some. by rewrite lookup_insert_eq. }
  split; [apply NoDup_fst_map_to_list|]. done.
Qed.

Lemma set_overwrites_witness :
  let c : gmap (list byte) (list byte) :=
    {[ Example.qux := Example.flags ++ Example.bar ]} in
  NoDup (map_to_list c).*1
  ∧ ∃ c1 c2 frame s,
      serve [Example.set_bar] c = Done c1
      ∧ serve [Example.set_baz] c1 = Done c2
      ∧ c2 = <[Example.foo := Example.flags ++ Example.baz]> c
      ∧ size c2 = size c1
      ∧ NoDup (map_to_list c2).*1
      ∧ dispatch (Example.get_foo).1 (Example.get_foo).2 c2
        = Done (Await (AsyncWrite frame), s)
      ∧ frame_status frame = 0
      ∧ frame_body frame = Example.flags ++ Example.baz.
Proof.
  apply (set_overwrites [Example.set_qux] _
           (Example.set_bar).1 (Example.set_bar).2
           (Example.set_baz).1 (Example.set_baz).2
           (Example.get_foo).1 (Example.get_foo).2
           Example.foo Example.flags Example.bar Example.flags Example.baz).
  - reflexivity.
  - repeat split; reflexivity.
  - repeat split; reflexivity.
  - split; reflexivity.
Defined.

(** C9. Every SET that is served has a body of at least 4 bytes
    ([serve_set_bodies]: a shorter one leaves the buffer). Then every value
    the cache ever holds is at least 4 bytes long, so a GET that finds its
    key is answered with status NoError and the non-empty stored value:
    taking the status from the emptiness of the body never turns a hit into
    KeyNotFound. *)
Theorem hit_never_reported_missing (reqs : list (list byte * list byte))
    (c : gmap (list byte) (list byte)) (h body K v : list byte) :
  serve reqs ∅ = Done c →
  is_get h body K →
  c !! K = Some v →
  Forall (λ r, hdr r.1 1 = 0x1 → (4 ≤ length r.2)%nat) reqs
  ∧ map_Forall (λ _ v', (4 ≤ length v')%nat) c
  ∧ ∃ frame s,
      dispatch h body c = Done (Await (AsyncWrite frame), s)
      ∧ frame_status frame = 0
      ∧ frame_body frame = v
      ∧ frame_body frame ≠ [].
Proof.
  intros Hs Hg Hv.
  split; [by eapply serve_set_bodies|].
  assert (Hall : map_Forall (λ _ v', (4 ≤ length v')%nat) c)
    by (eapply serve_values_length; [exact Hs | apply map_Forall_empty]).
  split; [exact Hall|].
  pose proof (Hall K v Hv) as H4. simpl in H4.
  destruct (dispatch_is_get _ _ _ c Hg) as (s & Hd & _).
  rewrite Hv in Hd. simpl in Hd.
  rewrite bool_decide_eq_false_2 in Hd by lia.
  exists (response_frame x00 v), s.
  split; [exact Hd|]. split; [reflexivity|]. split; [reflexivity|].
  rewrite frame_body_response. simpl. intros ->. simpl in H4. lia.
Qed.

Lemma hit_never_reported_missing_witness :
  let c : gmap (list byte) (list byte) :=
    <[ Example.qux := Example.flags ++ Example.bar ]>
      {[ Example.foo := ["f"; "o"; "o"; "b"]%byte ++ Example.bar ]} in
  Forall (λ r, hdr r.1 1 = 0x1 → (4 ≤ length r.2)%nat)
    [Example.set_no_extras; Example.get_foo; Example.set_qux]
  ∧ map_Forall (λ _ v', (4 ≤ length v')%nat) c
  ∧ ∃ frame s,
      dispatch (Example.get_foo).1 (Example.get_foo).2 c
      = Done (Await (AsyncWrite frame), s)
      ∧ frame_status frame = 0
      ∧ frame_body frame = ["f"; "o"; "o"; "b"]%byte ++ Example.bar
      ∧ frame_body frame ≠ [].
Proof.
  apply (hit_never_reported_missing
           [Example.set_no_extras; Example.get_foo; Example.set_qux] _
           (Example.get_foo).1 (Example.get_foo).2 Example.foo).
  - reflexivity.
  - split; reflexivity.
  - reflexivity.
Defined.

(** ** One connection, step by step *)

Lemma steps_S (n : nat) (c : conn) : steps (S n) c = steps n (step c).
Proof. unfold steps. apply Nat.iter_succ_r. Qed.

Lemma steps_closed (n : nat) (c : conn) :
  stage c = Closed → steps n c = c.
Proof.
  intros Hc. induction n as [|n IH]; [done|].
  rewrite steps_S. unfold step at 1. rewrite Hc. exact IH.
Qed.

Lemma read_exact_all (old b rest : list byte) :
  read_exact (Z.of_nat (length b)) old (b ++ rest) = (false, b, rest).
Proof.
  unfold read_exact.
  rewrite bool_decide_eq_true_2 by (rewrite length_app; lia).
  by rewrite Nat2Z.id, take_app_length, drop_app_length.
Qed.

(** The handler of a rejected header returns at once, whatever the error
    flag, and touches nothing. *)
Lemma on_read_header_rejected (ec : bool) (s : state) :
  rejected (header_ s) → on_read_header ec s = Done (Finished, s).
Proof.
  intros Hr. unfold on_read_header. unfold_M. simpl.
  destruct Hr as [Hm | [H0 H1]].
  - rewrite (bool_decide_eq_false_2 _ Hm). by rewrite andb_false_r.
  - rewrite (bool_decide_eq_false_2 _ H0), (bool_decide_eq_false_2 _ H1).
    by rewrite andb_false_r.
Qed.

Lemma on_read_header_accepted (s : state) :
  hdr (header_ s) 0 = 0x80 →
  hdr (header_ s) 1 = 0x0 ∨ hdr (header_ s) 1 = 0x1 →
  on_read_header false s =
  Done (Await (AsyncReadBody (bodySize (header_ s))),
        State (g_itemCache s) (header_ s)
              (resize (Z.to_nat (bodySize (header_ s))) x00 (buffer_ s))
              (critical s)).
Proof.
  intros Hm Hop. unfold on_read_header. unfold_M. simpl.
  rewrite (bool_decide_eq_true_2 _ Hm). simpl.
  destruct Hop as [H|H].
  - by rewrite (bool_decide_eq_true_2 _ H).
  - rewrite (bool_decide_eq_true_2 _ H). by rewrite orb_true_r.
Qed.

(** What each handler may start. *)
Lemma handler_hands_over (op : async_op) (ec : bool) (s s' : state) (op' : async_op) :
  handler op ec s = Done (Await op', s') → hands_over op ec op'.
Proof.
  destruct op as [|n|frame]; simpl.
  - unfold on_read_header, do_read_body. unfold_M. simpl.
    destruct ec; simpl; [done|].
    destruct (bool_decide (hdr (header_ s) 0 = 128)
              && (bool_decide (hdr (header_ s) 1 = 0)
                  || bool_decide (hdr (header_ s) 1 = 1))); [|done].
    intros [= <- _]. constructor.
  - unfold on_read_body. unfold_M. simpl.
    destruct ec; simpl; [done|].
    case_bool_decide as H0.
    + rewrite <- (on_read_body_get s H0), (on_read_body_get s H0).
      destruct (range (buffer_ s) (hdr (header_ s) 4) (keySize (header_ s)))
        as [K|] eqn:HK.
      * rewrite (do_get_in_range s K HK). intros [= <- _]. constructor.
      * unfold range in HK. case_bool_decide; [done|].
        rewrite do_get_out_of_range; [done | lia].
    + case_bool_decide as H1; [|done].
      intros Hd. pose proof (do_set_Done _ _ _ Hd) as [H4 Hk].
      rewrite do_set_in_range in Hd by done.
      injection Hd as <- _. constructor.
  - unfold on_write, do_read_header. unfold_M.
    destruct ec; simpl; [done|]. intros [= <- _]. constructor.
Qed.

Lemma written_app (l l' : list event) :
  written (l ++ l') = written l ++ written l'.
Proof.
  induction l as [|[op|[| |frame] [|]] l IH]; simpl; try done.
  by rewrite IH, app_assoc.
Qed.

(** [resume] keeps the log sequenced and writes nothing. *)
Lemma resume_sequenced (op : async_op) (ec : bool) (s : state)
    (inp out : list byte) (l : list event) :
  sequenced l (Pending op) →
  let c := resume (handler op ec) s inp out (l ++ [Completed op ec]) in
  sequenced (log c) (stage c)
  ∧ outgoing c = out
  ∧ written (log c) = written (l ++ [Completed op ec]).
Proof.
  intros Hl. unfold resume.
  destruct (handler op ec s) as [[[op'|] s']|] eqn:Hh; simpl.
  - split; [|split; [done|]].
    + apply sequenced_next; [done|]. by eapply handler_hands_over.
    + rewrite (written_app _ [Issued op']). simpl. by rewrite app_nil_r.
  - split; [|done]. by apply sequenced_closed.
  - split; [|done]. by apply sequenced_undefined.
Qed.

Lemma accept_sound (cache : gmap (list byte) (list byte)) (input : list byte) :
  sound (accept cache input).
Proof. split; [apply sequenced_start | done]. Qed.

Lemma step_sound (c : conn) : sound c → sound (step c).
Proof.
  intros [Hseq Hout]. unfold step.
  destruct (stage c) as [[|n|frame]| |] eqn:Hst;
    [| | |split; [by rewrite Hst | done]..].
  - destruct (read_exact _ _ _) as [[ec h] inp].
    destruct (resume_sequenced AsyncReadHeader ec
                (State (g_itemCache (prog c)) h (buffer_ (prog c)) (critical (prog c)))
                inp (outgoing c) (log c) Hseq) as (H1 & H2 & H3).
    split; [exact H1|]. etrans; [exact H2|]. etrans; [|symmetry; exact H3].
    rewrite written_app, Hout. simpl. by rewrite ?app_nil_r.
  - destruct (read_exact _ _ _) as [[ec b] inp].
    destruct (resume_sequenced (AsyncReadBody n) ec
                (State (g_itemCache (prog c)) (header_ (prog c)) b (critical (prog c)))
                inp (outgoing c) (log c) Hseq) as (H1 & H2 & H3).
    split; [exact H1|]. etrans; [exact H2|]. etrans; [|symmetry; exact H3].
    rewrite written_app, Hout. simpl. by rewrite ?app_nil_r.
  - destruct (resume_sequenced (AsyncWrite frame) false (prog c)
                (incoming c) (outgoing c ++ frame) (log c) Hseq) as (H1 & H2 & H3).
    split; [exact H1|]. etrans; [exact H2|]. etrans; [|symmetry; exact H3].
    rewrite written_app, Hout. simpl. by rewrite ?app_nil_r.
Qed.

Lemma steps_sound (n : nat) (c : conn) : sound c → sound (steps n c).
Proof.
  revert c. induction n as [|n IH]; intros c Hc; [done|].
  rewrite steps_S. apply IH. by apply step_sound.
Qed.

(** In a sequenced log a header read is started, after the first, only
    right after a write has completed without error. *)
Lemma sequenced_header_after_write (l : list event) (p : phase) (i : nat) :
  sequenced l p →
  l !! S i = Some (Issued AsyncReadHeader) →
  ∃ frame, l !! i = Some (Completed (AsyncWrite frame) false).
Proof.
  intros Hseq. revert i.
  induction Hseq as [|l op ec op' Hseq IH Hh|l op ec Hseq IH|l op ec Hseq IH];
    intros i Hi.
  - by destruct i.
  - destruct (decide (S i < length l)%nat) as [Hlt|Hge].
    + rewrite <- app_assoc, lookup_app_l in Hi by done.
      destruct (IH i Hi) as [frame Hf]. exists frame.
      rewrite <- app_assoc, lookup_app_l by lia. done.
    + destruct (decide (S i = length l)) as [Heq|Hne].
      * rewrite <- app_assoc, lookup_app_r in Hi by lia.
        replace (S i - length l)%nat with 0%nat in Hi by lia. done.
      * destruct (decide (i = length l)) as [->|Hne'].
        -- rewrite <- app_assoc, lookup_app_r in Hi by lia.
           replace (S (length l) - length l)%nat with 1%nat in Hi by lia.
           simpl in Hi. injection Hi as ->. inversion Hh; subst.
           exists frame. rewrite <- app_assoc, lookup_app_r by lia.
           by rewrite Nat.sub_diag.
        -- apply lookup_lt_Some in Hi. rewrite !length_app in Hi. simpl in Hi. lia.
  - destruct (decide (S i < length l)%nat) as [Hlt|Hge].
    + rewrite lookup_app_l in Hi by done.
      destruct (IH i Hi) as [frame Hf]. exists frame.
      rewrite lookup_app_l by lia. done.
    + rewrite lookup_app_r in Hi by lia.
      destruct (S i - length l)%nat as [|[|k]]; done.
  - destruct (decide (S i < length l)%nat) as [Hlt|Hge].
    + rewrite lookup_app_l in Hi by done.
      destruct (IH i Hi) as [frame Hf]. exists frame.
      rewrite lookup_app_l by lia. done.
    + rewrite lookup_app_r in Hi by lia.
      destruct (S i - length l)%nat as [|[|k]]; done.
Qed.

Lemma step_read_header (s : state) (h rest out : list byte) (l : list event) :
  length h = header_length →
  hdr h 0 = 0x80 → hdr h 1 = 0x0 ∨ hdr h 1 = 0x1 →
  step (Conn s (Pending AsyncReadHeader) (h ++ rest) out l)
  = Conn (State (g_itemCache s) h
                (resize (Z.to_nat (bodySize h)) x00 (buffer_ s)) (critical s))
         (Pending (AsyncReadBody (bodySize h))) rest out
         (l ++ [Completed AsyncReadHeader false; Issued (AsyncReadBody (bodySize h))]).
Proof.
  intros Hlen Hm Hop. unfold step. simpl.
  rewrite <- Hlen, read_exact_all. unfold resume.
  rewrite on_read_header_accepted by done. simpl.
  by rewrite <- app_assoc.
Qed.

Lemma step_read_header_rejected (s : state) (h rest out : list byte) (l : list event) :
  length h = header_length → rejected h →
  step (Conn s (Pending AsyncReadHeader) (h ++ rest) out l)
  = Conn (State (g_itemCache s) h (buffer_ s) (critical s)) Closed rest out
         (l ++ [Completed AsyncReadHeader false]).
Proof.
  intros Hlen Hr. unfold step. simpl.
  rewrite <- Hlen, read_exact_all. unfold resume.
  by rewrite on_read_header_rejected.
Qed.

Lemma step_read_body (s : state) (b rest out : list byte) (l : list event) :
  step (Conn s (Pending (AsyncReadBody (Z.of_nat (length b)))) (b ++ rest) out l)
  = resume (on_read_body false)
      (State (g_itemCache s) (header_ s) b (critical s)) rest out
      (l ++ [Completed (AsyncReadBody (Z.of_nat (length b))) false]).
Proof. unfold step. simpl. by rewrite read_exact_all. Qed.

Lemma step_write (s : state) (frame inp out : list byte) (l : list event) :
  step (Conn s (Pending (AsyncWrite frame)) inp out l)
  = Conn s (Pending AsyncReadHeader) inp (out ++ frame)
         (l ++ [Completed (AsyncWrite frame) false; Issued AsyncReadHeader]).
Proof. unfold step, resume. simpl. by rewrite <- app_assoc. Qed.

(** One SET served from the socket: header read, body read, response
    written, next header read started. *)
Lemma steps_serve_set (s : state) (h b K flags V rest out : list byte) (l : list event) :
  is_frame h b → is_set h b K flags V →
  steps 3 (Conn s (Pending AsyncReadHeader) (h ++ b ++ rest) out l)
  = Conn (State (<[K := flags ++ V]> (g_itemCache s)) h (response_frame x00 [])
                (critical s ++ [Assign K (flags ++ V)]))
         (Pending AsyncReadHeader) rest (out ++ response_frame x00 [])
         (l ++ [Completed AsyncReadHeader false;
                Issued (AsyncReadBody (Z.of_nat (length b)));
                Completed (AsyncReadBody (Z.of_nat (length b))) false;
                Issued (AsyncWrite (response_frame x00 []));
                Completed (AsyncWrite (response_frame x00 [])) false;
                Issued AsyncReadHeader]).
Proof.
  intros (Hlen & Hm & Hsz) Hset.
  rewrite !steps_S. unfold steps. simpl Nat.iter.
  rewrite step_read_header by (first [done | right; apply Hset]).
  rewrite Hsz, step_read_body. unfold resume.
  rewrite on_read_body_set by apply Hset.
  rewrite (do_set_is_set _ K flags V) by exact Hset.
  rewrite step_write. simpl. by rewrite <- !app_assoc.
Qed.

(** One GET served from the socket. *)
Lemma steps_serve_get (s : state) (h b K rest out : list byte) (l : list event) :
  is_frame h b → is_get h b K →
  let v := default [] (g_itemCache s !! K) in
  let frame := response_frame (if bool_decide (length v = 0%nat) then x01 else x00) v in
  steps 3 (Conn s (Pending AsyncReadHeader) (h ++ b ++ rest) out l)
  = Conn (State (g_itemCache s) h frame (critical s ++ [Find K]))
         (Pending AsyncReadHeader) rest (out ++ frame)
         (l ++ [Completed AsyncReadHeader false;
                Issued (AsyncReadBody (Z.of_nat (length b)));
                Completed (AsyncReadBody (Z.of_nat (length b))) false;
                Issued (AsyncWrite frame);
                Completed (AsyncWrite frame) false;
                Issued AsyncReadHeader]).
Proof.
  intros (Hlen & Hm & Hsz) (Hop & HK) v frame.
  rewrite !steps_S. unfold steps. simpl Nat.iter.
  rewrite step_read_header by (first [done | by left]).
  rewrite Hsz, step_read_body. unfold resume.
  rewrite on_read_body_get by done.
  rewrite (do_get_in_range _ K) by exact HK.
  cbv beta iota zeta. cbn [g_itemCache header_ buffer_ critical].
  fold v. fold frame.
  rewrite step_write. simpl. by rewrite <- !app_assoc.
Qed.

Lemma steps_add (n m : nat) (c : conn) : steps (n + m) c = steps m (steps n c).
Proof.
  revert c. induction n as [|n IH]; intros c; [done|].
  simpl Nat.add. by rewrite !steps_S, IH.
Qed.

(** ** Rejected headers *)

(** C6. Whenever the 24 bytes read as a header have a magic byte other than
    0x80, or an opcode other than 0x00 and 0x01, the session ends there:
    however long the connection is observed afterwards, nothing has been
    written, no further operation has been started, and the cache has been
    neither read nor changed. *)
Theorem rejected_header_closes (s : state) (h rest out : list byte)
    (l : list event) (n : nat) :
  length h = header_length → rejected h →
  steps (S n) (Conn s (Pending AsyncReadHeader) (h ++ rest) out l)
  = Conn (State (g_itemCache s) h (buffer_ s) (critical s)) Closed rest out
         (l ++ [Completed AsyncReadHeader false]).
Proof.
  intros Hlen Hr. rewrite steps_S, step_read_header_rejected by done.
  by apply steps_closed.
Qed.

Lemma rejected_header_closes_witness :
  rejected Example.bad_magic
  ∧ steps 5 (accept ∅ (Example.bad_magic ++ Example.foo))
    = Conn (State ∅ Example.bad_magic [] []) Closed Example.foo []
           [Issued AsyncReadHeader; Completed AsyncReadHeader false].
Proof.
  assert (Hr : rejected Example.bad_magic) by (left; vm_compute; discriminate).
  split; [exact Hr|].
  exact (rejected_header_closes
           (State ∅ (replicate header_length x00) [] [])
           Example.bad_magic Example.foo [] [Issued AsyncReadHeader] 4
           eq_refl Hr).
Defined.

(** ** Pipelining *)

(** C8. On one connection the operations follow one another: at any moment
    the bytes written are exactly the frames of the writes that have
    completed, and a header read, other than the first, is started only
    right after the write of the previous response has completed. So a SET
    and a GET of the same key sent back to back are served in that order:
    the SET is answered, then the GET is answered with the value the SET
    stored, whatever the cache held before. *)
Theorem pipelined_set_then_get (cache : gmap (list byte) (list byte)) :
  (∀ (input : list byte) (n : nat),
     let c := steps n (accept cache input) in
     outgoing c = written (log c)
     ∧ ∀ i, log c !! S i = Some (Issued AsyncReadHeader) →
            ∃ frame, log c !! i = Some (Completed (AsyncWrite frame) false))
  ∧ (∀ hs bs hg bg K flags V rest : list byte,
       is_frame hs bs → is_set hs bs K flags V →
       is_frame hg bg → is_get hg bg K →
       let c := steps 6 (accept cache (hs ++ bs ++ hg ++ bg ++ rest)) in
       let reply := response_frame x00 (flags ++ V) in
       stage c = Pending AsyncReadHeader
       ∧ incoming c = rest
       ∧ outgoing c = response_frame x00 [] ++ reply
       ∧ frame_status reply = 0
       ∧ frame_body reply = flags ++ V
       ∧ critical (prog c) = [Assign K (flags ++ V); Find K]).
Proof.
  split.
  - intros input n c.
    destruct (steps_sound n _ (accept_sound cache input)) as [Hseq Hout].
    split; [exact Hout|].
    intros i Hi. by eapply sequenced_header_after_write.
  - intros hs bs hg bg K flags V rest Hfs Hs Hfg Hg c reply.
    assert (Hc : c = Conn (State (<[K := flags ++ V]> cache) hg reply
                                 [Assign K (flags ++ V); Find K])
                          (Pending AsyncReadHeader) rest
                          (response_frame x00 [] ++ reply)
                          (log c)).
    { subst c. change 6%nat with (3 + 3)%nat. rewrite steps_add.
      unfold accept, resume, start, do_read_header. unfold_M.
      rewrite (steps_serve_set _ hs bs K flags V) by done.
      rewrite (steps_serve_get _ hg bg K) by done.
      cbn [g_itemCache critical log]. rewrite lookup_insert_eq.
      cbn [default id]. destruct Hs as (_ & _ & _ & Hf & _).
      rewrite bool_decide_eq_false_2 by (rewrite length_app; lia).
      reflexivity. }
    rewrite Hc. done.
Qed.

Lemma pipelined_set_then_get_witness :
  let input := (Example.set_bar).1 ++ (Example.set_bar).2
               ++ (Example.get_foo).1 ++ (Example.get_foo).2 ++ [] in
  (log (steps 3 (accept ∅ input)) !! 6%nat = Some (Issued AsyncReadHeader)
   ∧ ∃ frame, log (steps 3 (accept ∅ input)) !! 5%nat
              = Some (Completed (AsyncWrite frame) false))
  ∧ outgoing (steps 6 (accept ∅ input))
    = response_frame x00 [] ++ response_frame x00 (Example.flags ++ Example.bar).
Proof.
  intros input.
  destruct (pipelined_set_then_get ∅) as [Horder Hpipe].
  split.
  - assert (Hi : log (steps 3 (accept ∅ input)) !! 6%nat
                 = Some (Issued AsyncReadHeader)) by reflexivity.
    split; [exact Hi|].
    exact (proj2 (Horder input 3%nat) 5%nat Hi).
  - apply (Hpipe (Example.set_bar).1 (Example.set_bar).2
             (Example.get_foo).1 (Example.get_foo).2
             Example.foo Example.flags Example.bar []).
    + repeat split; reflexivity.
    + repeat split; reflexivity.
    + repeat split; reflexivity.
    + split; reflexivity.
Defined.

(** * Further properties of the handlers *)

(** ** Which keys a request can change *)

(** Serving requests changes no key that none of them SETs. *)
Lemma serve_key_untouched (reqs : list (list byte * list byte))
    (c c' : gmap (list byte) (list byte)) (K : list byte) :
  forallb (λ r, negb (sets_key K r)) reqs = true →
  serve reqs c = Done c' → c' !! K = c !! K.
Proof.
  revert c. induction reqs as [|[h body] reqs IH]; intros c Hn Hs.
  - by injection Hs as <-.
  - simpl in Hn, Hs. apply andb_true_iff in Hn as [Hr Hn].
    destruct (dispatch h body c) as [[r s]|] eqn:Hd; [|done].
    rewrite (IH _ Hn Hs).
    destruct (dispatch_cache _ _ _ _ _ Hd)
      as [-> | (H1 & key & value & Hk & _ & ->)]; [done|].
    apply lookup_insert_ne. intros ->.
    unfold sets_key in Hr. simpl in Hr. rewrite Hk in Hr.
    rewrite !bool_decide_eq_true_2 in Hr by done. done.
Qed.

(** The frame a GET is answered with depends on the cache only through the
    value of its key. *)
Lemma get_frame_by_lookup (h body K : list byte)
    (c c' : gmap (list byte) (list byte)) :
  is_get h body K → c' !! K = c !! K →
  ∃ frame s s',
    dispatch h body c = Done (Await (AsyncWrite frame), s)
    ∧ dispatch h body c' = Done (Await (AsyncWrite frame), s').
Proof.
  intros Hg Hl.
  destruct (dispatch_is_get _ _ _ c Hg) as (s & Hd & _).
  destruct (dispatch_is_get _ _ _ c' Hg) as (s' & Hd' & _).
  rewrite Hl in Hd'. eauto.
Qed.

(** X1. Isolation across keys: whatever requests are served in between, as long
    as none of them is a SET of K, a GET of K is answered with the very
    frame it would have been answered with before them. *)
Theorem get_unaffected_by_other_keys (reqs : list (list byte * list byte))
    (c c' : gmap (list byte) (list byte)) (h body K : list byte) :
  serve reqs c = Done c' →
  forallb (λ r, negb (sets_key K r)) reqs = true →
  is_get h body K →
  ∃ frame s s',
    dispatch h body c = Done (Await (AsyncWrite frame), s)
    ∧ dispatch h body c' = Done (Await (AsyncWrite frame), s').
Proof.
  intros Hs Hn Hg. apply (get_frame_by_lookup _ _ K); [done|].
  by eapply serve_key_untouched.
Qed.

Lemma get_unaffected_by_other_keys_witness :
  let c : gmap (list byte) (list byte) :=
    {[ Example.foo := Example.flags ++ Example.bar ]} in
  ∃ frame s s',
    dispatch (Example.get_foo).1 (Example.get_foo).2 c
    = Done (Await (AsyncWrite frame), s)
    ∧ dispatch (Example.get_foo).1 (Example.get_foo).2
        (<[ Example.qux := Example.flags ++ Example.bar ]> c)
      = Done (Await (AsyncWrite frame), s').
Proof.
  intros c.
  apply (get_unaffected_by_other_keys [Example.set_qux; Example.get_foo]
           c _ _ _ Example.foo).
  - reflexivity.
  - reflexivity.
  - split; reflexivity.
Defined.

(** X2. A value stored by a SET is what a later GET of the same key returns,
    however many requests are served in between, as long as none of them is
    a SET of that key. *)
Theorem round_trip_through_traffic (reqs : list (list byte * list byte))
    (c c' : gmap (list byte) (list byte))
    (hs bs hg bg K flags V : list byte) :
  is_set hs bs K flags V →
  serve ((hs, bs) :: reqs) c = Done c' →
  forallb (λ r, negb (sets_key K r)) reqs = true →
  is_get hg bg K →
  ∃ s, dispatch hg bg c'
       = Done (Await (AsyncWrite (response_frame x00 (flags ++ V))), s).
Proof.
  intros Hset Hs Hn Hg. simpl in Hs.
  destruct (dispatch_is_set _ _ _ _ _ c Hset) as (s1 & Hd1 & Hc1).
  rewrite Hd1 in Hs.
  pose proof (serve_key_untouched _ _ _ K Hn Hs) as Hl.
  rewrite Hc1, lookup_insert_eq in Hl.
  destruct (dispatch_is_get _ _ _ c' Hg) as (s & Hd & _).
  rewrite Hl in Hd. simpl in Hd.
  destruct Hset as (_ & _ & _ & Hf & _).
  rewrite bool_decide_eq_false_2 in Hd by (rewrite length_app; lia).
  eauto.
Qed.

Lemma round_trip_through_traffic_witness :
  ∃ s, dispatch (Example.get_foo).1 (Example.get_foo).2
         (<[ Example.qux := Example.flags ++ Example.bar ]>
            {[ Example.foo := Example.flags ++ Example.baz ]})
       = Done (Await (AsyncWrite (response_frame x00 (Example.flags ++ Example.baz))), s).
Proof.
  apply (round_trip_through_traffic [Example.get_foo; Example.set_qux] ∅ _
           (Example.set_baz).1 (Example.set_baz).2
           (Example.get_foo).1 (Example.get_foo).2
           Example.foo Example.flags Example.baz).
  - repeat split; reflexivity.
  - reflexivity.
  - reflexivity.
  - split; reflexivity.
Defined.

(** X3. Two SETs on different keys leave the same cache in either order. *)
Theorem sets_of_distinct_keys_commute (c : gmap (list byte) (list byte))
    (h1 b1 K1 f1 V1 h2 b2 K2 f2 V2 : list byte) :
  is_set h1 b1 K1 f1 V1 → is_set h2 b2 K2 f2 V2 → K1 ≠ K2 →
  serve [(h1, b1); (h2, b2)] c = Done (<[K2 := f2 ++ V2]> (<[K1 := f1 ++ V1]> c))
  ∧ serve [(h2, b2); (h1, b1)] c = serve [(h1, b1); (h2, b2)] c.
Proof.
  intros H1 H2 Hne.
  assert (Hs : ∀ ha ba Ka fa Va hb bb Kb fb Vb c0,
             is_set ha ba Ka fa Va → is_set hb bb Kb fb Vb →
             serve [(ha, ba); (hb, bb)] c0
             = Done (<[Kb := fb ++ Vb]> (<[Ka := fa ++ Va]> c0))).
  { intros ha ba Ka fa Va hb bb Kb fb Vb c0 Ha Hb. simpl.
    destruct (dispatch_is_set _ _ _ _ _ c0 Ha) as (sa & -> & ->).
    destruct (dispatch_is_set _ _ _ _ _ (<[Ka := fa ++ Va]> c0) Hb)
      as (sb & -> & ->). done. }
  rewrite (Hs _ _ _ _ _ _ _ _ _ _ c H1 H2), (Hs _ _ _ _ _ _ _ _ _ _ c H2 H1).
  split; [done|]. f_equal. by apply insert_insert_ne.
Qed.

Lemma sets_of_distinct_keys_commute_witness :
  serve [Example.set_bar; Example.set_qux] ∅
  = Done (<[ Example.qux := Example.flags ++ Example.bar ]>
            (<[ Example.foo := Example.flags ++ Example.bar ]> ∅))
  ∧ serve [Example.set_qux; Example.set_bar] ∅
    = serve [Example.set_bar; Example.set_qux] ∅.
Proof.
  apply (sets_of_distinct_keys_commute ∅
           (Example.set_bar).1 (Example.set_bar).2 Example.foo Example.flags Example.bar
           (Example.set_qux).1 (Example.set_qux).2 Example.qux Example.flags Example.bar).
  - repeat split; reflexivity.
  - repeat split; reflexivity.
  - discriminate.
Defined.

(** ** The response on the wire *)

Lemma length_bytes_decode_mod (n : Z) :
  0 ≤ n →
  Z.shiftl (to_Z (of_Z (Z.shiftr n 24))) 24
  + Z.shiftl (to_Z (of_Z (Z.shiftr n 16))) 16
  + Z.shiftl (to_Z (of_Z (Z.shiftr n 8))) 8
  + to_Z (of_Z (Z.land n 255)) = n mod 2 ^ 32.
Proof.
  intros Hn. rewrite !to_Z_of_Z.
  change 255 with (Z.ones 8). rewrite Z.land_ones by lia.
  rewrite !Z.shiftr_div_pow2, !Z.shiftl_mul_pow2 by lia.
  change (2 ^ 8) with 256. change (2 ^ 16) with 65536.
  change (2 ^ 24) with 16777216. change (2 ^ 32) with 4294967296.
  Z.div_mod_to_equations. lia.
Qed.

(** X4. The length field [send_response] writes is the length [buffer_] had on
    entry, reduced modulo 2^32, whatever is sent after the header. For a
    status other than 1 and a buffer below 4 GiB it is the length of the
    body that follows; the frame is always the 24-byte header and the body. *)
Theorem send_response_length_field (status : byte) (s : state) :
  ∃ frame,
    send_response status s
    = Done (Await (AsyncWrite frame),
            State (g_itemCache s) (header_ s) frame (critical s))
    ∧ frame_body_length frame = Z.of_nat (length (buffer_ s)) mod 2 ^ 32
    ∧ length frame = (header_length + length (frame_body frame))%nat
    ∧ (status ≠ x01 → Z.of_nat (length (buffer_ s)) < 2 ^ 32 →
       frame_body frame = buffer_ s
       ∧ frame_body_length frame = Z.of_nat (length (frame_body frame))).
Proof.
  exists (response_frame status (buffer_ s)).
  split; [apply send_response_frame|].
  assert (Hlen : frame_body_length (response_frame status (buffer_ s))
                 = Z.of_nat (length (buffer_ s)) mod 2 ^ 32).
  { unfold frame_body_length, hdr, response_frame.
    cbn [app lookup_total list_lookup_total].
    apply length_bytes_decode_mod. lia. }
  split; [exact Hlen|]. split; [reflexivity|].
  intros Hst Hlt. rewrite frame_body_response.
  rewrite bool_decide_eq_false_2 by done. split; [done|].
  rewrite Hlen. apply Z.mod_small. lia.
Qed.

Lemma send_response_length_field_witness :
  ∃ frame,
    send_response x00 (State ∅ [] (Example.flags ++ Example.bar) [])
    = Done (Await (AsyncWrite frame), State ∅ [] frame [])
    ∧ frame_body frame = Example.flags ++ Example.bar
    ∧ frame_body_length frame = 7.
Proof.
  destruct (send_response_length_field x00
              (State ∅ [] (Example.flags ++ Example.bar) []))
    as (frame & Hs & _ & _ & Hb).
  exists frame. split; [exact Hs|].
  destruct Hb as [Hb Hl]; [discriminate | vm_compute; reflexivity |].
  split; [exact Hb|]. rewrite Hl, Hb. reflexivity.
Defined.

(** X5. Every GET that misses is answered with the same 33 bytes: a header with
    magic 0x81, status 00 01, extras length 0 and a length field of 0,
    followed by the 9 bytes of "Not found". The cache is left as it was. *)
Theorem miss_frame (h body K : list byte) (c : gmap (list byte) (list byte)) :
  is_get h body K → c !! K = None →
  ∃ s, dispatch h body c
       = Done (Await (AsyncWrite
                 ([x81; x00; x00; x00; x00; x00; x00; x01;
                   x00; x00; x00; x00] ++ replicate 12 x00
                  ++ ["N"; "o"; "t"; " "; "f"; "o"; "u"; "n"; "d"]%byte)), s)
       ∧ g_itemCache s = c.
Proof.
  intros Hg Hc.
  destruct (dispatch_is_get _ _ _ c Hg) as (s & Hd & Hs).
  rewrite Hc in Hd. exists s. split; [exact Hd | exact Hs].
Qed.

Lemma miss_frame_witness :
  ∃ s, dispatch (Example.get_foo).1 (Example.get_foo).2
         {[ Example.qux := Example.flags ++ Example.bar ]}
       = Done (Await (AsyncWrite
                 ([x81; x00; x00; x00; x00; x00; x00; x01;
                   x00; x00; x00; x00] ++ replicate 12 x00
                  ++ ["N"; "o"; "t"; " "; "f"; "o"; "u"; "n"; "d"]%byte)), s)
       ∧ g_itemCache s = {[ Example.qux := Example.flags ++ Example.bar ]}.
Proof.
  apply (miss_frame _ _ Example.foo).
  - split; reflexivity.
  - reflexivity.
Defined.

(** ** Bounds *)



(** X7. A GET looks at nothing but its key region: the bytes of the extras and
    any bytes after the key do not change the answer. *)
Theorem get_reads_only_key_region (h ex ex' K junk : list byte)
    (c : gmap (list byte) (list byte)) :
  hdr h 1 = 0x0 → hdr h 4 = Z.of_nat (length ex) →
  length ex' = length ex → keySize h = Z.of_nat (length K) →
  ∃ frame s s',
    dispatch h (ex ++ K ++ junk) c = Done (Await (AsyncWrite frame), s)
    ∧ dispatch h (ex' ++ K) c = Done (Await (AsyncWrite frame), s').
Proof.
  intros Hop He He' Hk.
  assert (H1 : is_get h (ex ++ K ++ junk) K)
    by (split; [done | by apply request_key_app]).
  assert (H2 : is_get h (ex' ++ K) K).
  { split; [done|]. rewrite <- (app_nil_r K) at 1.
    apply request_key_app; [by rewrite He' | done]. }
  destruct (dispatch_is_get _ _ _ c H1) as (s & Hd & _).
  destruct (dispatch_is_get _ _ _ c H2) as (s' & Hd' & _).
  eauto.
Qed.

Lemma get_reads_only_key_region_witness :
  ∃ frame s s',
    dispatch (Example.get_header x06) ([] ++ Example.foo ++ Example.bar)
      {[ Example.foo := Example.flags ++ Example.baz ]}
    = Done (Await (AsyncWrite frame), s)
    ∧ dispatch (Example.get_header x06) ([] ++ Example.foo)
        {[ Example.foo := Example.flags ++ Example.baz ]}
      = Done (Await (AsyncWrite frame), s').
Proof.
  apply (get_reads_only_key_region (Example.get_header x06) [] []
           Example.foo Example.bar); reflexivity.
Defined.

(** ** The announced body size *)

(** X8. [do_read_body] adds the four length bytes as [int]s: with the top bit of
    the first byte clear the size is the big-endian value of the field; with
    it set, the sum is negative and becomes a [size_t] of at least
    2^64 - 2^31. *)
Theorem bodySize_sign_extension (h : list byte) :
  let u := hdr h 8 * 2 ^ 24 + hdr h 9 * 2 ^ 16 + hdr h 10 * 2 ^ 8 + hdr h 11 in
  (hdr h 8 < 128 → bodySize h = u)
  ∧ (128 ≤ hdr h 8 → bodySize h = u + (2 ^ 64 - 2 ^ 32)).
Proof.
  intros u. subst u. unfold bodySize, to_size_t, to_int.
  pose proof (hdr_range h 8). pose proof (hdr_range h 9).
  pose proof (hdr_range h 10). pose proof (hdr_range h 11).
  rewrite !Z.shiftl_mul_pow2 by lia.
  change (2 ^ 8) with 256. change (2 ^ 16) with 65536.
  change (2 ^ 24) with 16777216. change (2 ^ 31) with 2147483648.
  change (2 ^ 32) with 4294967296. change (2 ^ 64) with 18446744073709551616.
  split; intros Hb; Z.div_mod_to_equations; lia.
Qed.

Lemma bodySize_sign_extension_witness :
  bodySize (Example.set_header x0a) = 10
  ∧ bodySize ([x80; x00; x00; x00; x00; x00; x00; x00; x80; x00; x00; x01]
              ++ replicate 12 x00)
    = 2 ^ 64 - 2 ^ 31 + 1.
Proof.
  split.
  - apply (bodySize_sign_extension (Example.set_header x0a)).
    vm_compute. reflexivity.
  - rewrite (proj2 (bodySize_sign_extension _)); [reflexivity|].
    vm_compute. discriminate.
Defined.

(** * Further properties of one connection *)

(** ** Frames cut short *)

Lemma read_exact_short (n : Z) (old input : list byte) :
  Z.of_nat (length input) < n →
  read_exact n old input = (true, input ++ drop (length input) old, []).
Proof.
  intros H. unfold read_exact. rewrite bool_decide_eq_false_2; [done | lia].
Qed.

(** X9. When the peer closes before the 24 header bytes, or before the body the
    header announced, have arrived, the read completes with an error and the
    session ends: nothing is written, the cache is neither read nor changed,
    and no further operation is started. *)
Theorem truncated_frame_closes (s : state) (inp out : list byte)
    (l : list event) (n : nat) :
  ((length inp < header_length)%nat →
   steps (S n) (Conn s (Pending AsyncReadHeader) inp out l)
   = Conn (State (g_itemCache s) (inp ++ drop (length inp) (header_ s))
                 (buffer_ s) (critical s))
          Closed [] out (l ++ [Completed AsyncReadHeader true]))
  ∧ (∀ size : Z,
       Z.of_nat (length inp) < size →
       steps (S n) (Conn s (Pending (AsyncReadBody size)) inp out l)
       = Conn (State (g_itemCache s) (header_ s)
                     (inp ++ drop (length inp) (buffer_ s)) (critical s))
              Closed [] out (l ++ [Completed (AsyncReadBody size) true])).
Proof.
  split.
  - intros Hlt. rewrite steps_S. unfold step at 1. simpl.
    rewrite read_exact_short by (unfold header_length in *; lia).
    unfold resume. by apply steps_closed.
  - intros size Hlt. rewrite steps_S. unfold step at 1. simpl.
    rewrite read_exact_short by done.
    unfold resume. by apply steps_closed.
Qed.

Lemma truncated_frame_closes_witness :
  steps 3 (accept ∅ (take 10 (Example.set_bar).1))
  = Conn (State ∅ (take 10 (Example.set_bar).1 ++ replicate 14 x00) [] [])
         Closed [] []
         [Issued AsyncReadHeader; Completed AsyncReadHeader true]
  ∧ steps 3 (Conn (State ∅ (Example.set_bar).1 (replicate 10 x00) [])
               (Pending (AsyncReadBody 10)) Example.flags [] [])
    = Conn (State ∅ (Example.set_bar).1 (Example.flags ++ replicate 6 x00) [])
           Closed [] [] [Completed (AsyncReadBody 10) true].
Proof.
  split.
  - apply (truncated_frame_closes
             (State ∅ (replicate header_length x00) [] [])
             (take 10 (Example.set_bar).1) [] [Issued AsyncReadHeader] 2).
    vm_compute. lia.
  - apply (truncated_frame_closes
             (State ∅ (Example.set_bar).1 (replicate 10 x00) [])
             Example.flags [] [] 2).
    vm_compute. reflexivity.
Defined.

(** ** A stream of requests *)

Lemma on_read_body_other (s : state) :
  hdr (header_ s) 1 ≠ 0x0 → hdr (header_ s) 1 ≠ 0x1 →
  on_read_body false s = Done (Finished, s).
Proof.
  intros H0 H1. unfold on_read_body. unfold_M. simpl.
  by rewrite !bool_decide_eq_false_2.
Qed.

Lemma do_set_out_of_range (s : state) :
  Z.of_nat (length (buffer_ s)) < 4
  ∨ Z.of_nat (length (buffer_ s)) < hdr (header_ s) 4 + keySize (header_ s) →
  do_set s = OutOfRange.
Proof.
  intros H. destruct (do_set s) as [[r s']|] eqn:Hd; [|done].
  apply do_set_Done in Hd. lia.
Qed.

(** The body handler does the same whatever accesses were recorded before:
    it behaves as [dispatch] on the cache, the header and the body. *)
Lemma on_read_body_dispatch (c : gmap (list byte) (list byte))
    (h b : list byte) (crit : list cache_access) :
  on_read_body false (State c h b crit)
  = match dispatch h b c with
    | Done (r, s) =>
        Done (r, State (g_itemCache s) (header_ s) (buffer_ s) (crit ++ critical s))
    | OutOfRange => OutOfRange
    end.
Proof.
  destruct (decide (hdr h 1 = 0x0)) as [H0|H0];
    [|destruct (decide (hdr h 1 = 0x1)) as [H1|H1]].
  - rewrite dispatch_get, on_read_body_get by done.
    destruct (decide (Z.of_nat (length b) < hdr h 4 + keySize h)) as [Hlt|Hge].
    + by rewrite !do_get_out_of_range.
    + assert (Hr : range b (hdr h 4) (keySize h)
                   = Done (take (Z.to_nat (keySize h)) (drop (Z.to_nat (hdr h 4)) b)))
        by (apply range_in; lia).
      rewrite (do_get_in_range (State c h b crit) _ Hr).
      rewrite (do_get_in_range (State c h b []) _ Hr). reflexivity.
  - rewrite dispatch_set, on_read_body_set by done.
    destruct (decide (Z.of_nat (length b) < 4
                      ∨ Z.of_nat (length b) < hdr h 4 + keySize h)) as [Hlt|Hge].
    + by rewrite !do_set_out_of_range.
    + rewrite !do_set_in_range by (simpl; lia). reflexivity.
  - rewrite dispatch_other, on_read_body_other by done. simpl.
    by rewrite app_nil_r.
Qed.

(** A GET or SET that runs to its end starts the write of the frame it left
    in [buffer_]. *)
Lemma dispatch_reply (h b : list byte) (c : gmap (list byte) (list byte))
    (r : next) (s : state) :
  hdr h 1 = 0x0 ∨ hdr h 1 = 0x1 →
  dispatch h b c = Done (r, s) →
  r = Await (AsyncWrite (buffer_ s)) ∧ header_ s = h
  ∧ ∃ status v, buffer_ s = response_frame status v.
Proof.
  intros [H0|H1] Hd.
  - rewrite dispatch_get in Hd by done.
    destruct (decide (Z.of_nat (length b) < hdr h 4 + keySize h)) as [Hlt|Hge].
    + by rewrite do_get_out_of_range in Hd.
    + assert (Hr : range b (hdr h 4) (keySize h)
                   = Done (take (Z.to_nat (keySize h)) (drop (Z.to_nat (hdr h 4)) b)))
        by (apply range_in; lia).
      rewrite (do_get_in_range (State c h b []) _ Hr) in Hd.
      injection Hd as <- <-. simpl. eauto.
  - rewrite dispatch_set in Hd by done.
    pose proof (do_set_Done _ _ _ Hd) as [H4 Hk].
    rewrite do_set_in_range in Hd by done.
    injection Hd as <- <-. simpl. eauto.
Qed.

(** One request served from the socket, whatever it is. *)
Lemma steps_serve_request (s s1 : state) (h b rest out : list byte)
    (l : list event) (r : next) :
  on_wire (h, b) →
  dispatch h b (g_itemCache s) = Done (r, s1) →
  steps 3 (Conn s (Pending AsyncReadHeader) (h ++ b ++ rest) out l)
  = Conn (State (g_itemCache s1) h (buffer_ s1) (critical s ++ critical s1))
         (Pending AsyncReadHeader) rest (out ++ buffer_ s1)
         (l ++ [Completed AsyncReadHeader false;
                Issued (AsyncReadBody (Z.of_nat (length b)));
                Completed (AsyncReadBody (Z.of_nat (length b))) false;
                Issued (AsyncWrite (buffer_ s1));
                Completed (AsyncWrite (buffer_ s1)) false;
                Issued AsyncReadHeader]).
Proof.
  intros [(Hlen & Hm & Hsz) Hop] Hd. simpl in Hlen, Hm, Hsz, Hop.
  destruct (dispatch_reply _ _ _ _ _ Hop Hd) as (-> & Hh & _).
  rewrite !steps_S. unfold steps. simpl Nat.iter.
  rewrite step_read_header by done.
  rewrite Hsz, step_read_body. unfold resume.
  cbn [g_itemCache header_ buffer_ critical].
  rewrite on_read_body_dispatch, Hd, Hh.
  rewrite step_write. simpl. by rewrite <- !app_assoc.
Qed.

Lemma serve_stream_from (reqs : list (list byte * list byte))
    (s : state) (c' : gmap (list byte) (list byte))
    (rest out : list byte) (l : list event) :
  Forall on_wire reqs →
  serve reqs (g_itemCache s) = Done c' →
  let k := steps (3 * length reqs)
             (Conn s (Pending AsyncReadHeader) (wire reqs ++ rest) out l) in
  stage k = Pending AsyncReadHeader
  ∧ incoming k = rest
  ∧ outgoing k = out ++ replies reqs (g_itemCache s)
  ∧ g_itemCache (prog k) = c'.
Proof.
  revert s out l. induction reqs as [|[h b] reqs IH]; intros s out l Hw Hs.
  - injection Hs as <-. simpl. by rewrite app_nil_r.
  - apply Forall_cons in Hw as [Hr Hw]. simpl in Hs.
    destruct (dispatch h b (g_itemCache s)) as [[r s1]|] eqn:Hd; [|done].
    replace (3 * length ((h, b) :: reqs))%nat
      with (3 + 3 * length reqs)%nat by (simpl; lia).
    rewrite steps_add.
    replace (wire ((h, b) :: reqs) ++ rest)
      with (h ++ b ++ wire reqs ++ rest)
      by (unfold wire; simpl; by rewrite <- !app_assoc).
    rewrite (steps_serve_request s s1 h b _ out l r Hr Hd).
    destruct (dispatch_reply _ _ _ _ _ (proj2 Hr) Hd) as (-> & _ & _).
    match goal with
    | |- context [steps _ (Conn ?s2 _ _ ?out2 ?l2)] =>
        destruct (IH s2 out2 l2 Hw Hs) as (H1 & H2 & H3 & H4)
    end.
    cbn [replies]. rewrite Hd.
    split; [exact H1|]. split; [exact H2|]. split; [|exact H4].
    rewrite H3. cbn [g_itemCache]. by rewrite <- app_assoc.
Qed.

(** X10. A session fed a stream of requests in sequence (each a GET or a SET
    that stays inside its body) serves them one after the other: after three
    completions per request it has consumed exactly their bytes, written
    exactly their response frames in order, left the cache as serving the
    requests one by one leaves it, and is reading the next header. *)
Theorem session_serves_stream (reqs : list (list byte * list byte))
    (c c' : gmap (list byte) (list byte)) (rest : list byte) :
  Forall on_wire reqs →
  serve reqs c = Done c' →
  let k := steps (3 * length reqs) (accept c (wire reqs ++ rest)) in
  stage k = Pending AsyncReadHeader
  ∧ incoming k = rest
  ∧ outgoing k = replies reqs c
  ∧ g_itemCache (prog k) = c'.
Proof.
  intros Hw Hs.
  exact (serve_stream_from reqs
           (State c (replicate header_length x00) [] []) c' rest []
           [Issued AsyncReadHeader] Hw Hs).
Qed.

Lemma session_serves_stream_witness :
  let reqs := [Example.set_bar; Example.get_foo; Example.set_baz; Example.get_foo] in
  let k := steps 12 (accept ∅ (wire reqs ++ Example.qux)) in
  stage k = Pending AsyncReadHeader
  ∧ incoming k = Example.qux
  ∧ outgoing k = replies reqs ∅
  ∧ g_itemCache (prog k) = {[ Example.foo := Example.flags ++ Example.baz ]}.
Proof.
  apply (session_serves_stream
           [Example.set_bar; Example.get_foo; Example.set_baz; Example.get_foo]
           ∅ _ Example.qux).
  - repeat (apply Forall_cons; split;
            [split; [repeat split; reflexivity
                    | first [left; reflexivity | right; reflexivity]] |]).
    constructor.
  - reflexivity.
Defined.

(** ** What a session writes *)





(** * The server: sessions sharing the cache *)

(** ** What one handler does to the cache *)

Lemma dispatch_effect (h b : list byte) (c : gmap (list byte) (list byte))
    (r : next) (s : state) :
  dispatch h b c = Done (r, s) →
  (g_itemCache s = c ∧ ∀ K, existsb (assigns K) (critical s) = false)
  ∨ ∃ k v, (4 ≤ length v)%nat
           ∧ g_itemCache s = <[k := v]> c
           ∧ critical s = [Assign k v].
Proof.
  intros Hd.
  destruct (decide (hdr h 1 = 0x0)) as [H0|H0];
    [|destruct (decide (hdr h 1 = 0x1)) as [H1|H1]].
  - left. rewrite dispatch_get in Hd by done.
    destruct (decide (Z.of_nat (length b) < hdr h 4 + keySize h)) as [Hlt|Hge].
    + by rewrite do_get_out_of_range in Hd.
    + assert (Hr : range b (hdr h 4) (keySize h)
                   = Done (take (Z.to_nat (keySize h)) (drop (Z.to_nat (hdr h 4)) b)))
        by (apply range_in; lia).
      rewrite (do_get_in_range (State c h b []) _ Hr) in Hd.
      injection Hd as _ <-. done.
  - right. rewrite dispatch_set in Hd by done.
    pose proof (do_set_Done _ _ _ Hd) as [H4 Hk]. simpl in H4, Hk.
    rewrite do_set_in_range in Hd by done. simpl in Hd.
    injection Hd as _ <-. do 2 eexists. split; [|split; reflexivity].
    rewrite length_app, length_take. lia.
  - left. rewrite dispatch_other in Hd by done. by injection Hd as _ <-.
Qed.

(** One completion on a connection appends to its accesses and either
    leaves the cache alone, assigning nothing, or assigns one value of at
    least four bytes. *)
Lemma step_effect (c : conn) :
  ∃ d, critical (prog (step c)) = critical (prog c) ++ d
       ∧ ((g_itemCache (prog (step c)) = g_itemCache (prog c)
           ∧ ∀ K, existsb (assigns K) d = false)
          ∨ ∃ k v, (4 ≤ length v)%nat
                   ∧ g_itemCache (prog (step c)) = <[k := v]> (g_itemCache (prog c))
                   ∧ d = [Assign k v]).
Proof.
  assert (Hnil : ∀ s : state,
            critical s = critical s ++ []
            ∧ ((g_itemCache s = g_itemCache s
                ∧ ∀ K, existsb (assigns K) [] = false)
               ∨ ∃ k v, (4 ≤ length v)%nat
                        ∧ g_itemCache s = <[k := v]> (g_itemCache s)
                        ∧ [] = [Assign k v]))
    by (intros s; rewrite app_nil_r; split; [done | by left]).
  unfold step.
  destruct (stage c) as [[|n|frame]| |] eqn:Hs;
    [| | |exists []; apply Hnil..].
  - destruct (read_exact _ _ _) as [[ec h] inp]. unfold resume.
    exists []. unfold on_read_header, do_read_body. unfold_M. simpl.
    destruct (negb ec && _ && _); simpl; apply (Hnil (prog c)).
  - destruct (read_exact _ _ _) as [[ec b] inp]. unfold resume.
    destruct ec.
    { exists []. unfold on_read_body. unfold_M. simpl. apply (Hnil (prog c)). }
    rewrite on_read_body_dispatch.
    destruct (dispatch (header_ (prog c)) b (g_itemCache (prog c)))
      as [[r s1]|] eqn:Hd.
    + exists (critical s1).
      destruct (dispatch_effect _ _ _ _ _ Hd) as [[Hc Hn] | (k & v & Hv & Hc & Hk)].
      * destruct r as [op|]; simpl; (split; [done|]); left; by split.
      * destruct r as [op|]; simpl; (split; [done|]); right; eauto.
    + exists []. simpl. apply (Hnil (prog c)).
  - exists []. unfold resume. simpl. apply (Hnil (prog c)).
Qed.


Lemma run_cons (e : completion) (es : list completion) (sv : server) :
  run (e :: es) sv = run es (handle e sv).
Proof. reflexivity. Qed.


Lemma handle_sessions_length (e : completion) (sv : server) :
  (length (sessions sv) ≤ length (sessions (handle e sv)))%nat.
Proof.
  destruct e as [ec input|j]; simpl.
  - unfold do_accept. destruct ec; simpl; [done|]. rewrite length_app. lia.
  - destruct (sessions sv !! j); simpl; [by rewrite length_insert | done].
Qed.

Lemma run_sessions_length (es : list completion) (sv : server) :
  (length (sessions sv) ≤ length (sessions (run es sv)))%nat.
Proof.
  revert sv. induction es as [|e es IH]; intros sv; [done|].
  rewrite run_cons. etrans; [apply handle_sessions_length | apply IH].
Qed.

(** What one completion does to the shared cache. *)
Lemma handle_effect (e : completion) (sv : server) :
  itemCache (handle e sv) = itemCache sv
  ∨ ∃ i c k v, e = Ready i ∧ sessions sv !! i = Some c
               ∧ (4 ≤ length v)%nat
               ∧ itemCache (handle e sv) = <[k := v]> (itemCache sv)
               ∧ accesses (handle e sv) i = accesses sv i ++ [Assign k v].
Proof.
  destruct e as [ec input|j]; simpl.
  - left. unfold do_accept. by destruct ec.
  - destruct (sessions sv !! j) as [c|] eqn:Hj; [|by left]. simpl.
    destruct (step_effect (over (itemCache sv) c))
      as (d & Hd & [[Hc _] | (k & v & Hv & Hc & ->)]).
    + by left.
    + right. exists j, c, k, v. split; [done|]. split; [done|].
      split; [done|]. split; [exact Hc|].
      unfold accesses. simpl.
      rewrite list_lookup_insert_eq by (by eapply lookup_lt_Some).
      by rewrite Hj.
Qed.

(** ** Invariants of the shared cache *)

Lemma run_values_length (es : list completion) (sv : server) :
  map_Forall (λ _ v, (4 ≤ length v)%nat) (itemCache sv) →
  map_Forall (λ _ v, (4 ≤ length v)%nat) (itemCache (run es sv)).
Proof.
  revert sv. induction es as [|e es IH]; intros sv Hsv; [done|].
  rewrite run_cons. apply IH.
  destruct (handle_effect e sv) as [-> | (i & c & k & v & _ & _ & Hv & -> & _)];
    [done|].
  by apply map_Forall_insert_2.
Qed.

(** X12. However the completions of any number of connections interleave, as
    long as no handler has read outside its buffer, every value in the
    shared cache carries its four flag bytes, so a GET on any connection
    that finds its key is answered with status NoError and the stored
    value. *)
Theorem server_values_carry_flags (es : list completion) (h body K v : list byte) :
  defined (run es listening) →
  is_get h body K →
  itemCache (run es listening) !! K = Some v →
  map_Forall (λ _ v', (4 ≤ length v')%nat) (itemCache (run es listening))
  ∧ ∃ s, dispatch h body (itemCache (run es listening))
         = Done (Await (AsyncWrite (response_frame x00 v)), s).
Proof.
  intros _ Hg Hv.
  assert (Hall : map_Forall (λ _ v', (4 ≤ length v')%nat)
                   (itemCache (run es listening)))
    by (apply run_values_length, map_Forall_empty).
  split; [exact Hall|].
  pose proof (Hall K v Hv) as H4. simpl in H4.
  destruct (dispatch_is_get _ _ _ (itemCache (run es listening)) Hg)
    as (s & Hd & _).
  rewrite Hv in Hd. simpl in Hd.
  rewrite bool_decide_eq_false_2 in Hd by lia. eauto.
Qed.

Lemma server_values_carry_flags_witness :
  let es := [Accepted false (wire [Example.set_bar]);
             Accepted false (wire [Example.set_qux]);
             Ready 1; Ready 0; Ready 0; Ready 1] in
  map_Forall (λ _ v', (4 ≤ length v')%nat) (itemCache (run es listening))
  ∧ ∃ s, dispatch (Example.get_foo).1 (Example.get_foo).2
           (itemCache (run es listening))
         = Done (Await (AsyncWrite (response_frame x00 (Example.flags ++ Example.bar))), s).
Proof.
  intros es.
  apply (server_values_carry_flags es _ _ Example.foo).
  - repeat constructor; discriminate.
  - split; reflexivity.
  - reflexivity.
Defined.

(** ** A stored value stays until its key is assigned again *)





(** ** Sequencing in every session *)

Lemma over_sound (g : gmap (list byte) (list byte)) (c : conn) :
  sound c → sound (over g c).
Proof. intros H. exact H. Qed.

Lemma run_sound (es : list completion) (sv : server) :
  Forall sound (sessions sv) → Forall sound (sessions (run es sv)).
Proof.
  revert sv. induction es as [|e es IH]; intros sv Hsv; [done|].
  rewrite run_cons. apply IH.
  destruct e as [ec input|i]; simpl.
  - unfold do_accept. destruct ec; simpl; [done|].
    apply Forall_app. split; [done|].
    constructor; [apply accept_sound | constructor].
  - destruct (sessions sv !! i) as [c|] eqn:Hi; [|done]. simpl.
    apply Forall_insert; [done|].
    apply step_sound, over_sound.
    by eapply Forall_lookup_1.
Qed.

(** X14. With any number of connections and any interleaving of their
    completions, each session keeps its own order: the bytes it has written
    are the frames of its completed writes, and it starts a header read,
    after its first, only right after the write of its previous response
    has completed. *)
Theorem every_session_sequenced (es : list completion) (i : nat) (c : conn) :
  sessions (run es listening) !! i = Some c →
  outgoing c = written (log c)
  ∧ ∀ k, log c !! S k = Some (Issued AsyncReadHeader) →
         ∃ frame, log c !! k = Some (Completed (AsyncWrite frame) false).
Proof.
  intros Hi.
  assert (Hs : sound c).
  { eapply Forall_lookup_1; [|exact Hi].
    apply run_sound. constructor. }
  destruct Hs as [Hseq Hout]. split; [exact Hout|].
  intros k Hk. by eapply sequenced_header_after_write.
Qed.

Lemma every_session_sequenced_witness :
  let es := [Accepted false (wire [Example.set_bar; Example.get_foo]);
             Accepted false (wire [Example.get_foo]);
             Ready 0; Ready 1; Ready 0; Ready 1; Ready 0; Ready 1] in
  ∃ c, sessions (run es listening) !! 0%nat = Some c
       ∧ log c !! 6%nat = Some (Issued AsyncReadHeader)
       ∧ outgoing c = written (log c)
       ∧ ∃ frame, log c !! 5%nat = Some (Completed (AsyncWrite frame) false).
Proof.
  intros es.
  destruct (sessions (run es listening) !! 0%nat) as [c|] eqn:Hc;
    [|vm_compute in Hc; discriminate Hc].
  exists c. split; [reflexivity|].
  assert (H6 : log c !! 6%nat = Some (Issued AsyncReadHeader))
    by (vm_compute in Hc; injection Hc as <-; reflexivity).
  split; [exact H6|].
  destruct (every_session_sequenced es 0 c Hc) as [Hout Hord].
  split; [exact Hout|]. exact (Hord 5%nat H6).
Defined.

(** ** A SET seen from another connection *)

(** X15. A SET takes effect for every connection as soon as its body handler
    has run: a GET of the same key whose body handler runs next on another
    connection is answered with the value just stored, although the
    response to the SET has not been written yet. *)
Theorem set_visible_to_other_sessions (sv : server) (i j : nat) (ci cj : conn)
    (bs bg K flags V rest_i rest_j : list byte) :
  i ≠ j →
  sessions sv !! i = Some ci → sessions sv !! j = Some cj →
  stage ci = Pending (AsyncReadBody (Z.of_nat (length bs))) →
  incoming ci = bs ++ rest_i →
  is_set (header_ (prog ci)) bs K flags V →
  stage cj = Pending (AsyncReadBody (Z.of_nat (length bg))) →
  incoming cj = bg ++ rest_j →
  is_get (header_ (prog cj)) bg K →
  ∃ ci' cj',
    sessions (run [Ready i; Ready j] sv) !! i = Some ci'
    ∧ stage ci' = Pending (AsyncWrite (response_frame x00 []))
    ∧ outgoing ci' = outgoing ci
    ∧ sessions (run [Ready i; Ready j] sv) !! j = Some cj'
    ∧ stage cj' = Pending (AsyncWrite (response_frame x00 (flags ++ V)))
    ∧ itemCache (run [Ready i; Ready j] sv) = <[K := flags ++ V]> (itemCache sv).
Proof.
  intros Hne Hi Hj Hsi Hini Hset Hsj Hinj Hget.
  destruct ci as [[gi hi bi ki] sti ini outi li].
  destruct cj as [[gj hj bj kj] stj inj outj lj].
  simpl in *. subst sti ini stj inj.
  unfold run. simpl. rewrite Hi. unfold over. simpl.
  rewrite step_read_body. unfold resume.
  rewrite on_read_body_set by apply Hset.
  rewrite (do_set_is_set _ K flags V) by exact Hset.
  cbn [g_itemCache prog sessions itemCache].
  rewrite list_lookup_insert_ne by done. rewrite Hj. simpl.
  rewrite step_read_body. unfold resume.
  rewrite on_read_body_get by apply Hget.
  rewrite (do_get_in_range _ K) by apply Hget.
  cbn [g_itemCache]. rewrite lookup_insert_eq. cbn [default id].
  destruct Hset as (_ & _ & _ & Hf & _).
  rewrite bool_decide_eq_false_2 by (rewrite length_app; lia).
  cbn [sessions itemCache prog g_itemCache].
  do 2 eexists.
  split.
  { rewrite list_lookup_insert_ne by done.
    apply list_lookup_insert_eq. by eapply lookup_lt_Some. }
  split; [reflexivity|]. split; [reflexivity|].
  split.
  { apply list_lookup_insert_eq. rewrite length_insert.
    by eapply lookup_lt_Some. }
  split; reflexivity.
Qed.

Lemma set_visible_to_other_sessions_witness :
  let sv := run [Accepted false (wire [Example.set_bar]);
                 Accepted false (wire [Example.get_foo]);
                 Ready 0; Ready 1] listening in
  ∃ ci ci' cj',
    sessions sv !! 0%nat = Some ci
    ∧ sessions (run [Ready 0; Ready 1] sv) !! 0%nat = Some ci'
    ∧ stage ci' = Pending (AsyncWrite (response_frame x00 []))
    ∧ outgoing ci' = outgoing ci
    ∧ sessions (run [Ready 0; Ready 1] sv) !! 1%nat = Some cj'
    ∧ stage cj' = Pending (AsyncWrite (response_frame x00 (Example.flags ++ Example.bar)))
    ∧ itemCache (run [Ready 0; Ready 1] sv)
      = <[Example.foo := Example.flags ++ Example.bar]> (itemCache sv).
Proof.
  intros sv.
  destruct (sessions sv !! 0%nat) as [ci|] eqn:Hi;
    [|vm_compute in Hi; discriminate Hi].
  destruct (sessions sv !! 1%nat) as [cj|] eqn:Hj;
    [|vm_compute in Hj; discriminate Hj].
  exists ci.
  assert (Hci : ci = Conn (State ∅ (Example.set_bar).1 (replicate 10 x00) [])
                          (Pending (AsyncReadBody 10)) (Example.set_bar).2 []
                          [Issued AsyncReadHeader; Completed AsyncReadHeader false;
                           Issued (AsyncReadBody 10)])
    by (vm_compute in Hi; injection Hi as <-; reflexivity).
  assert (Hcj : cj = Conn (State ∅ (Example.get_foo).1 (replicate 3 x00) [])
                          (Pending (AsyncReadBody 3)) (Example.get_foo).2 []
                          [Issued AsyncReadHeader; Completed AsyncReadHeader false;
                           Issued (AsyncReadBody 3)])
    by (vm_compute in Hj; injection Hj as <-; reflexivity).
  destruct (set_visible_to_other_sessions sv 0 1 ci cj
              (Example.set_bar).2 (Example.get_foo).2
              Example.foo Example.flags Example.bar [] [])
    as (ci' & cj' & H); try (subst ci cj; reflexivity); try done.
  - subst ci. repeat split; reflexivity.
  - subst cj. split; reflexivity.
  - exists ci', cj'. split; [reflexivity|]. exact H.
Defined.
